(** * Segmentation and dual rendering of an analysis report (app.py)

    A shallow embedding of the part of [app.py] that turns the text returned
    by the language model into an alternating sequence of prose and diagram
    segments, renders that sequence interactively and exports it as a
    standalone HTML document.

    Python values are modelled as follows.
    - [str] is a list of Unicode code points ([N]).
    - [re.compile(...)] gives a small backtracking matcher over the two
      kinds of node the pattern of the program is made of: a literal
      character and the capturing group [(.*?)] under [re.DOTALL].
    - [re.split] is the scan of CPython's [pattern.split]: search from the
      end of the previous match, emit the text before the match and then
      the captured groups, and end with the rest.
    - An exception is a value of an abstract type; code that may raise
      returns a sum, and the Streamlit calls are events of a trace. *)

From Stdlib Require Import String Ascii.
From Stdlib Require Import List NArith ZArith Arith Bool Lia.
Import ListNotations.

(** ** Python strings *)

Module Py.

Definition char := N.
Definition str := list char.

(** A literal of the source text (ASCII only). *)
Definition lit (s : string) : str := map N_of_ascii (list_ascii_of_string s).

(** The newline character. *)
Definition LF : char := 10%N.
(** The double quote character. *)
Definition DQUOTE : char := 34%N.

(** [s[i:j]] for [0 <= i], [0 <= j]. *)
Definition substr (s : str) (i j : nat) : str := firstn (j - i) (skipn i s).

(** [s.startswith(l)], returning what follows the prefix. *)
Fixpoint strip_prefix (l s : str) : option str :=
  match l with
  | [] => Some s
  | c :: l' =>
      match s with
      | [] => None
      | x :: s' => if N.eqb x c then strip_prefix l' s' else None
      end
  end.

(** The first occurrence of [l] in [s] (as [s.find(l)] locates it),
    returned as the text before it and the text after it. *)
Fixpoint find (l s : str) : option (str * str) :=
  match strip_prefix l s with
  | Some r => Some ([], r)
  | None =>
      match s with
      | [] => None
      | x :: s' =>
          match find l s' with
          | Some (b, a) => Some (x :: b, a)
          | None => None
          end
      end
  end.

(** [str.isspace] on one code point: the table [_PyUnicode_IsWhitespace]
    of CPython. *)
Definition isspace (c : char) : bool :=
  ((9 <=? c) && (c <=? 13) || (28 <=? c) && (c <=? 32)
   || (c =? 133) || (c =? 160) || (c =? 5760)
   || (8192 <=? c) && (c <=? 8202)
   || (c =? 8232) || (c =? 8233) || (c =? 8239) || (c =? 8287)
   || (c =? 12288))%N.

Fixpoint lstrip (s : str) : str :=
  match s with
  | [] => []
  | c :: s' => if isspace c then lstrip s' else s
  end.

Definition rstrip (s : str) : str := rev (lstrip (rev s)).

(** [s.strip()] *)
Definition strip (s : str) : str := rstrip (lstrip s).

(** [enumerate(l)] *)
Fixpoint enumerate_from {A : Type} (i : nat) (l : list A) : list (nat * A) :=
  match l with
  | [] => []
  | x :: l' => (i, x) :: enumerate_from (S i) l'
  end.

Definition enumerate {A : Type} (l : list A) : list (nat * A) :=
  enumerate_from 0 l.

(** [sep.join(l)] with the empty separator. *)
Definition join (l : list str) : str := concat l.

End Py.

Import Py.

(** ** The regular-expression engine, for the nodes the program uses *)

Module Re.

(** A compiled pattern is a sequence of nodes. *)
Inductive node : Type :=
| Literal (c : char)   (* one literal character *)
| LazyAnyGroup.        (* [(.*?)] under [re.DOTALL]: a capturing group
                          around a lazy star over any character *)

Definition pattern := list node.

(** Backtracking match of [p] at the start of [s]: the captured groups in
    order and the text after the match.  The lazy star tries the rest of
    the pattern first and takes one more character only when it failed. *)
Fixpoint match_here (p : pattern) (s : str) {struct p}
  : option (list str * str) :=
  match p with
  | [] => Some ([], s)
  | Literal c :: p' =>
      match s with
      | [] => None
      | x :: s' => if N.eqb x c then match_here p' s' else None
      end
  | LazyAnyGroup :: p' =>
      (fix lazy (s : str) : option (list str * str) :=
         match match_here p' s with
         | Some (gs, r) => Some ([] :: gs, r)
         | None =>
             match s with
             | [] => None
             | x :: s' =>
                 match lazy s' with
                 | Some (g :: gs, r) => Some ((x :: g) :: gs, r)
                 | _ => None
                 end
             end
         end) s
  end.

(** [pattern.search]: the leftmost position where the pattern matches;
    the text before the match, the groups and the text after the match. *)
Fixpoint search (p : pattern) (s : str) : option (str * list str * str) :=
  match match_here p s with
  | Some (gs, r) => Some ([], gs, r)
  | None =>
      match s with
      | [] => None
      | x :: s' =>
          match search p s' with
          | Some (b, gs, r) => Some (x :: b, gs, r)
          | None => None
          end
      end
  end.

(** [re.split(pattern, s)] with [maxsplit = 0].  Each round searches the
    text that is left; the fuel bounds the number of rounds and
    [length s + 1] rounds are always enough for a pattern whose matches
    are not empty. *)
Fixpoint split_fuel (fuel : nat) (p : pattern) (s : str) : list str :=
  match fuel with
  | 0 => [s]
  | S n =>
      match search p s with
      | None => [s]
      | Some (b, gs, r) => b :: gs ++ split_fuel n p r
      end
  end.

Definition split (p : pattern) (s : str) : list str :=
  split_fuel (S (length s)) p s.

(** A match object: [m.start()], [m.end()] and [m.groups()]. *)
Record Match : Type := mkMatch {
  m_start : nat;
  m_end : nat;
  m_groups : list str
}.

(** [pattern.finditer]: the successive non-overlapping matches, scanning
    [s], the text from position [pos] on. *)
Fixpoint finditer_fuel (fuel : nat) (p : pattern) (pos : nat) (s : str)
  : list Match :=
  match fuel with
  | 0 => []
  | S n =>
      match search p s with
      | None => []
      | Some (b, gs, r) =>
          let e := pos + (length s - length r) in
          mkMatch (pos + length b) e gs :: finditer_fuel n p e r
      end
  end.

Definition finditer (p : pattern) (s : str) : list Match :=
  finditer_fuel (S (length s)) p 0 s.

End Re.

(** ** The fence convention of the program *)

(** The opening marker: three backticks, the keyword and a newline. *)
Definition fence_open : str := lit "```mermaid" ++ [LF].

(** The closing fence: a newline and three backticks. *)
Definition fence_close : str := LF :: lit "```".

(** [re.compile(r"```mermaid\n(.*?)\n```", re.DOTALL)] (app.py, line 179). *)
Definition mermaid_pattern : Re.pattern :=
  map Re.Literal fence_open ++ [Re.LazyAnyGroup] ++ map Re.Literal fence_close.

(** ** The report as a sequence of segments *)

(** The data model of the report: a segment is prose or a diagram. *)
Inductive Segment : Type :=
| Prose (text : str)
| Diagram (text : str).

(** Both consumers tell the kind of a part by the parity of its index
    (lines 111 and 184). *)
Definition segment_of (i : nat) (part : str) : Segment :=
  if i mod 2 =? 0 then Prose part else Diagram part.

Definition segments_of (parts : list str) : list Segment :=
  map (fun ip => segment_of (fst ip) (snd ip)) (enumerate parts).

(** The segments of a response text. *)
Definition segments (s : str) : list Segment :=
  segments_of (Re.split mermaid_pattern s).

Definition is_diagram (seg : Segment) : bool :=
  match seg with
  | Prose _ => false
  | Diagram _ => true
  end.

(** The raw text of a segment with its delimiters put back. *)
Definition restore (seg : Segment) : str :=
  match seg with
  | Prose t => t
  | Diagram d => fence_open ++ d ++ fence_close
  end.

(** Where the [k]-th prose text starts and ends in [s], given the matches
    found from position [pos] on: after the match before it, up to the
    match after it. *)
Definition prose_start (pos : nat) (found : list Re.Match) (k : nat) : nat :=
  match k with
  | 0 => pos
  | S k' =>
      match nth_error found k' with
      | Some m => Re.m_end m
      | None => 0
      end
  end.

Definition prose_end (s : str) (found : list Re.Match) (k : nat) : nat :=
  match nth_error found k with
  | Some m => Re.m_start m
  | None => length s
  end.

(** ** The program *)

Section App.

(** The external collaborators of the script. *)

(** Instances of [Exception], and [str(e)] as an f-string formats it. *)
Variable Exn : Type.
Variable exn_str : Exn -> str.

(** [MarkdownIt().render]: the markup of a prose text, or the exception
    it raises. *)
Variable md_render : str -> Exn + str.

(** [streamlit_mermaid.st_mermaid]: the exception the widget raises on a
    diagram text, [None] when it returns. *)
Variable st_mermaid : str -> option Exn.

(** [os.path.splitext(name)[0]] *)
Variable splitext_root : str -> str.

(** *** generate_html_report *)

(** The first element of [html_parts]: the f-string with the header, the
    style sheet and the heading (app.py, lines 86-105). *)
Definition html_head (file_name : str) : str :=
  [LF]
  ++ lit "    <!DOCTYPE html>" ++ [LF]
  ++ lit "    <html lang=" ++ [DQUOTE] ++ lit "en" ++ [DQUOTE] ++ lit ">" ++ [LF]
  ++ lit "    <head>" ++ [LF]
  ++ lit "        <meta charset=" ++ [DQUOTE] ++ lit "UTF-8" ++ [DQUOTE] ++ lit ">" ++ [LF]
  ++ lit "        <meta name=" ++ [DQUOTE] ++ lit "viewport" ++ [DQUOTE] ++ lit " content=" ++ [DQUOTE] ++ lit "width=device-width, initial-scale=1.0" ++ [DQUOTE] ++ lit ">" ++ [LF]
  ++ lit "        <title>Code Analysis for " ++ file_name ++ lit "</title>" ++ [LF]
  ++ lit "        <style>" ++ [LF]
  ++ lit "            body { font-family: -apple-system, BlinkMacSystemFont, " ++ [DQUOTE] ++ lit "Segoe UI" ++ [DQUOTE] ++ lit ", Roboto, Helvetica, Arial, sans-serif; line-height: 1.6; padding: 20px; max-width: 1000px; margin: auto; background-color: #f9f9f9; }" ++ [LF]
  ++ lit "            h1, h2, h3, h4 { color: #333; border-bottom: 1px solid #ddd; padding-bottom: 5px; }" ++ [LF]
  ++ lit "            pre { background: #2d2d2d; color: #f1f1f1; padding: 15px; border-radius: 5px; overflow-x: auto; }" ++ [LF]
  ++ lit "            code { font-family: " ++ [DQUOTE] ++ lit "Courier New" ++ [DQUOTE] ++ lit ", Courier, monospace; }" ++ [LF]
  ++ lit "            .mermaid { text-align: center; margin-bottom: 20px; padding: 10px; border: 1px solid #ddd; border-radius: 5px; background-color: #fff; }" ++ [LF]
  ++ lit "            ul, ol { padding-left: 20px; }" ++ [LF]
  ++ lit "            blockquote { border-left: 4px solid #ddd; padding-left: 10px; color: #555; margin-left: 0; }" ++ [LF]
  ++ lit "        </style>" ++ [LF]
  ++ lit "    </head>" ++ [LF]
  ++ lit "    <body>" ++ [LF]
  ++ lit "        <h1>Code Analysis for " ++ file_name ++ lit "</h1>" ++ [LF]
  ++ lit "    ".

(** The last element of [html_parts]: the script that loads the diagram
    library (app.py, lines 121-128). *)
Definition html_tail : str :=
  [LF]
  ++ lit "        <script type=" ++ [DQUOTE] ++ lit "module" ++ [DQUOTE] ++ lit ">" ++ [LF]
  ++ lit "            import mermaid from 'https://cdn.jsdelivr.net/npm/mermaid@10/dist/mermaid.esm.min.mjs';" ++ [LF]
  ++ lit "            mermaid.initialize({ startOnLoad: true });" ++ [LF]
  ++ lit "        </script>" ++ [LF]
  ++ lit "    </body>" ++ [LF]
  ++ lit "    </html>" ++ [LF]
  ++ lit "    ".

(** The container of one diagram: the f-string of line 118, applied to
    the text already stripped. *)
Definition mermaid_div (code : str) : str :=
  lit "<div class=" ++ [DQUOTE] ++ lit "mermaid" ++ [DQUOTE] ++ lit ">" ++ [LF]
  ++ code ++ [LF] ++ lit "</div>".

(** The loop of lines 110-118 over [enumerate(parts)], appending to
    [html_parts]; an exception of the renderer leaves the loop. *)
Fixpoint append_parts (html_parts : list str) (l : list (nat * str))
  : Exn + list str :=
  match l with
  | [] => inr html_parts
  | (i, part) :: l' =>
      if i mod 2 =? 0 then
        match md_render part with
        | inl e => inl e
        | inr html => append_parts (html_parts ++ [html]) l'
        end
      else append_parts (html_parts ++ [mermaid_div (strip part)]) l'
  end.

(** The list [html_parts] as it is when line 130 joins it. *)
Definition html_parts (raw_markdown_content file_name : str)
  : Exn + list str :=
  let mermaid_pattern :=
    map Re.Literal (lit "```mermaid" ++ [LF]) ++ [Re.LazyAnyGroup]
    ++ map Re.Literal ([LF] ++ lit "```") in
  let html_parts := [html_head file_name] in
  let parts := Re.split mermaid_pattern raw_markdown_content in
  match append_parts html_parts (enumerate parts) with
  | inl e => inl e
  | inr html_parts => inr (html_parts ++ [html_tail])
  end.

Definition generate_html_report (raw_markdown_content file_name : str)
  : Exn + str :=
  match html_parts raw_markdown_content file_name with
  | inl e => inl e
  | inr html_parts => inr (join html_parts)
  end.

(** *** The script, from the download button to the end of the report *)

(** What the page receives, one constructor per Streamlit call. *)
Inductive ui : Type :=
| st_download_button (label data file_name mime : str)
| st_error (body : str)
| st_divider
| st_markdown (body : str)
| st_container (border : bool)
| st_mermaid_widget (code height : str)
| st_expander (label : str)
| st_code (body language : str).

(** A statement: the calls it made, and the exception it raised or its
    value. *)
Definition M (A : Type) : Type := (list ui * (Exn + A))%type.

Definition ret {A : Type} (a : A) : M A := ([], inr a).

Definition bind {A B : Type} (m : M A) (f : A -> M B) : M B :=
  match m with
  | (t, inl e) => (t, inl e)
  | (t, inr a) => let (t', r) := f a in (t ++ t', r)
  end.

Definition lift {A : Type} (r : Exn + A) : M A := ([], r).

Definition call (c : ui) : M unit := ([c], inr tt).

(** [try: body except Exception as e: handler(e)] *)
Definition try_except {A : Type} (body : M A) (handler : Exn -> M A) : M A :=
  match body with
  | (t, inl e) => let (t', r) := handler e in (t ++ t', r)
  | (t, inr a) => (t, inr a)
  end.

Fixpoint for_each {A : Type} (l : list A) (f : A -> M unit) : M unit :=
  match l with
  | [] => ret tt
  | x :: l' => bind (f x) (fun _ => for_each l' f)
  end.

Notation "x <- m ;; k" := (bind m (fun x => k))
  (at level 61, m at next level, right associativity).
Notation "m ;; k" := (bind m (fun _ => k))
  (at level 61, right associativity).

(** The call of the diagram widget (line 187). *)
Definition call_st_mermaid (code height : str) : M unit :=
  ([st_mermaid_widget code height],
   match st_mermaid code with Some e => inl e | None => inr tt end).

(** The body of the rendering loop (lines 183-193). *)
Definition render_part (i : nat) (part : str) : M unit :=
  if i mod 2 =? 0 then call (st_markdown part)
  else
    try_except
      (call (st_container true) ;;
       call_st_mermaid (strip part) (lit "500px") ;;
       call (st_expander (lit "Show Mermaid Code")) ;;
       call (st_code (strip part) (lit "mermaid")))
      (fun e =>
         call (st_error
                 (lit "Failed to render a Mermaid diagram. Syntax may be invalid."
                  ++ [LF] ++ lit "Error: " ++ exn_str e)) ;;
         call (st_code (strip part) (lit "mermaid"))).

(** The rendering logic (lines 178-193). *)
Definition render_interactive (raw_output : str) : M unit :=
  let parts := Re.split mermaid_pattern raw_output in
  for_each (enumerate parts) (fun ip => render_part (fst ip) (snd ip)).

(** The download button (lines 164-174); the label starts with the code
    point U+1F4E5. *)
Definition download_section (raw_output uploaded_name : str) : M unit :=
  try_except
    (html_content <- lift (generate_html_report raw_output uploaded_name) ;;
     call (st_download_button
             ([128229%N] ++ lit " Download Full HTML Report")
             html_content
             (splitext_root uploaded_name ++ lit "_analysis.html")
             (lit "text/html")))
    (fun e =>
       call (st_error (lit "Could not generate HTML report: " ++ exn_str e))).

(** Lines 164-193, run once the response of the model is there. *)
Definition show_report (raw_output uploaded_name : str) : M unit :=
  download_section raw_output uploaded_name ;;
  call st_divider ;;
  render_interactive raw_output.

(** *** The two consumers, segment by segment *)

(** What the export loop appends for one segment (lines 111-118). *)
Definition export_segment (seg : Segment) : Exn + str :=
  match seg with
  | Prose t => md_render t
  | Diagram d => inr (mermaid_div (strip d))
  end.

Fixpoint export_all (segs : list Segment) : Exn + list str :=
  match segs with
  | [] => inr []
  | seg :: segs' =>
      match export_segment seg with
      | inl e => inl e
      | inr html =>
          match export_all segs' with
          | inl e => inl e
          | inr body => inr (html :: body)
          end
      end
  end.

(** The diagram texts handed to the diagram widget, in order. *)
Definition st_mermaid_codes (t : list ui) : list str :=
  flat_map (fun c => match c with
                     | st_mermaid_widget code _ => [code]
                     | _ => []
                     end) t.

Definition is_download (c : ui) : bool :=
  match c with
  | st_download_button _ _ _ _ => true
  | _ => false
  end.

End App.

Arguments append_parts {Exn}.
Arguments html_parts {Exn}.
Arguments generate_html_report {Exn}.
Arguments ret {Exn A}.
Arguments bind {Exn A B}.
Arguments lift {Exn A}.
Arguments call {Exn}.
Arguments try_except {Exn A}.
Arguments for_each {Exn A}.
Arguments call_st_mermaid {Exn}.
Arguments render_part {Exn}.
Arguments render_interactive {Exn}.
Arguments download_section {Exn}.
Arguments show_report {Exn}.
Arguments export_segment {Exn}.
Arguments export_all {Exn}.

(** ** Definitions used to state the properties *)

(** The texts of the diagram segments, in order. *)
Definition diagram_texts (segs : list Segment) : list str :=
  flat_map (fun seg => match seg with
                       | Diagram d => [d]
                       | Prose _ => []
                       end) segs.

(** The elements at the odd indices of a list. *)
Fixpoint odd_elements {A : Type} (l : list A) : list A :=
  match l with
  | _ :: x :: l' => x :: odd_elements l'
  | _ => []
  end.

(** The number of positions of [s] at which [l] occurs. *)
Fixpoint occurrences (l s : str) : nat :=
  (match strip_prefix l s with Some _ => 1 | None => 0 end)
  + match s with
    | [] => 0
    | _ :: s' => occurrences l s'
    end.

(** The opening tag of a diagram container. *)
Definition mermaid_div_open : str :=
  lit "<div class=" ++ [DQUOTE] ++ lit "mermaid" ++ [DQUOTE] ++ lit ">".

(** [l] has no border: no proper suffix of [l] is a prefix of [l]. *)
Definition unbordered (l : str) : bool :=
  forallb (fun k => match strip_prefix (skipn k l) l with
                    | Some _ => false
                    | None => true
                    end)
          (seq 1 (length l - 1)).

(** The scan for the next diagram block: the first opening marker, then
    the first closing fence after it. *)
Definition next_fence (s : str) : option (str * str * str) :=
  match find fence_open s with
  | Some (b, t) =>
      match find fence_close t with
      | Some (g, r) => Some (b, g, r)
      | None => None
      end
  | None => None
  end.

(** The matches of the scan that starts at position [pos], where the
    text left is [s]. *)
Definition finditer_at (pos : nat) (s : str) : list Re.Match :=
  Re.finditer_fuel (S (length s)) mermaid_pattern pos s.

(** A renderer for the examples: one paragraph around the stripped text,
    which is the markup of a CommonMark renderer for one line of plain
    text; exceptions are their message. *)
Definition paragraph_render (t : str) : str + str :=
  inr (lit "<p>" ++ strip t ++ lit "</p>" ++ [LF]).

(** A renderer that always raises. *)
Definition failing_render (t : str) : str + str :=
  inl (lit "render failed").

Definition example_input : str :=
  lit "Intro text" ++ [LF] ++ lit "```mermaid" ++ [LF] ++ lit "A-->B" ++ [LF]
  ++ lit "```" ++ [LF] ++ lit "Outro text".

(** ** Further definitions: parts, traces *)

(** The text made of the parts of a split: each part at an odd place goes
    between the opening marker and the closing fence. *)
Fixpoint rejoin (parts : list str) : str :=
  match parts with
  | p :: d :: rest => p ++ fence_open ++ d ++ fence_close ++ rejoin rest
  | [p] => p
  | [] => []
  end.

Definition absent (l s : str) : bool :=
  match find l s with
  | Some _ => false
  | None => true
  end.

(** A list of parts in the form the split gives: no opening marker in a
    prose part that a diagram part follows, no closing fence in a diagram
    part, no fence pair in the last prose part. *)
Fixpoint canonicalb (parts : list str) : bool :=
  match parts with
  | p :: d :: rest =>
      absent fence_open p && absent fence_close d && canonicalb rest
  | [p] => match next_fence p with Some _ => false | None => true end
  | [] => false
  end.

(** The elements at the even indices of a list. *)
Fixpoint even_elements {A : Type} (l : list A) : list A :=
  match l with
  | x :: _ :: l' => x :: even_elements l'
  | [x] => [x]
  | [] => []
  end.

(** The texts of the prose segments, in order. *)
Definition prose_texts (segs : list Segment) : list str :=
  flat_map (fun seg => match seg with
                       | Prose t => [t]
                       | Diagram _ => []
                       end) segs.

(** The texts handed to [st.markdown], in order. *)
Definition st_markdown_bodies (t : list ui) : list str :=
  flat_map (fun c => match c with
                     | st_markdown body => [body]
                     | _ => []
                     end) t.

(** ** The fence pairs of a text, the body of a document *)

(** The well-formed fence pairs of a text, read off the text from the
    left: the first opening marker, the first closing fence after it,
    and so on from the end of that fence. A pair is given by the
    position of its opening marker and the text between marker and
    closing fence; [pos] is the position of [s] in the whole text. *)
Fixpoint fence_pairs_from (fuel pos : nat) (s : str) : list (nat * str) :=
  match fuel with
  | 0 => []
  | S n =>
      match next_fence s with
      | None => []
      | Some (b, g, r) =>
          let start := pos + length b in
          (start, g)
          :: fence_pairs_from n
               (start + length (fence_open ++ g ++ fence_close)) r
      end
  end.

Definition fence_pairs (s : str) : list (nat * str) :=
  fence_pairs_from (S (length s)) 0 s.

(** The match object of a fence pair: from its opening marker to the end
    of its closing fence, with the interior as the one group. *)
Definition match_of_pair (p : nat * str) : Re.Match :=
  Re.mkMatch (fst p)
             (fst p + length (fence_open ++ snd p ++ fence_close))
             [snd p].

(** The body of a document, as a text: markup and containers in turn,
    each container being the opening tag, a newline, the diagram text, a
    newline and the closing tag. *)
Fixpoint document_body (bodies codes : list str) : str :=
  match bodies, codes with
  | html :: bodies', code :: codes' =>
      html ++ mermaid_div_open ++ [LF] ++ code ++ [LF] ++ lit "</div>"
      ++ document_body bodies' codes'
  | html :: _, [] => html
  | [], _ => []
  end.

(** No occurrence of [l] that starts in [x] ends after [x]: no end of
    [x] shorter than [l] is a start of [l]. *)
Definition closed_end (l x : str) : bool :=
  forallb (fun k => let e := skipn k x in
                    (length l <=? length e)
                    || match strip_prefix e l with
                       | Some _ => false
                       | None => true
                       end)
          (seq 0 (length x)).

(** No occurrence of [l] that starts before [y] goes on into [y]: [y]
    starts with a character that [l] holds in its first place only. *)
Definition open_start (l y : str) : bool :=
  match y with
  | [] => false
  | c :: _ => forallb (fun x => negb (N.eqb x c)) (tl l)
  end.

(** ** The file name of the download: os.path.splitext *)

Module PosixPath.

(** The characters [.] and [/]. *)
Definition extsep : char := 46%N.
Definition sep : char := 47%N.

(** [s.rfind(c)] for one character: the scan keeps the last index at
    which [c] was seen, [-1] when there is none. *)
Fixpoint rfind_from (c : char) (s : str) (i last : Z) : Z :=
  match s with
  | [] => last
  | x :: s' => rfind_from c s' (i + 1)%Z (if N.eqb x c then i else last)
  end.

Definition rfind (c : char) (s : str) : Z := rfind_from c s 0%Z (-1)%Z.

(** The loop of [genericpath._splitext] that skips the leading dots of
    the last component: [n] is the number of rounds that are left,
    [dotIndex - filenameIndex]. *)
Fixpoint skip_leading_dots (n : nat) (p : str) (filenameIndex dotIndex : Z)
  : str * str :=
  match n with
  | 0 => (p, [])
  | S n' =>
      match nth_error p (Z.to_nat filenameIndex) with
      | Some c =>
          if N.eqb c extsep
          then skip_leading_dots n' p (filenameIndex + 1)%Z dotIndex
          else (firstn (Z.to_nat dotIndex) p, skipn (Z.to_nat dotIndex) p)
      | None => (firstn (Z.to_nat dotIndex) p, skipn (Z.to_nat dotIndex) p)
      end
  end.

(** [posixpath.splitext(p)]: [genericpath._splitext(p, sep, None, extsep)]. *)
Definition splitext (p : str) : str * str :=
  let sepIndex := rfind sep p in
  let dotIndex := rfind extsep p in
  if (dotIndex >? sepIndex)%Z then
    skip_leading_dots (Z.to_nat (dotIndex - (sepIndex + 1))) p
      (sepIndex + 1)%Z dotIndex
  else (p, []).

End PosixPath.

(** [c not in s] *)
Definition lacks (c : char) (s : str) : bool :=
  forallb (fun x => negb (N.eqb x c)) s.

(** A text made of dots only. *)
Definition all_dots (s : str) : bool :=
  forallb (fun x => N.eqb x PosixPath.extsep) s.

(** ** The prompt: format strings *)

Module Fmt.

(** What [string.Formatter.parse] yields: a literal text and the field
    that follows it, if one does. *)
Definition item : Type := (str * option str)%type.

(** The errors of parsing and formatting. [Unsupported] stands for the
    field syntax that this model leaves out: conversions, format
    specifications, attribute and index access, positional fields and
    names that may be numbers in digits outside ASCII. *)
Inductive error : Type :=
| SingleOpen          (* Single '{' encountered in format string *)
| SingleClose         (* Single '}' encountered in format string *)
| BraceInField        (* unexpected '{' in field name *)
| Unclosed            (* expected '}' before end of string *)
| Unsupported
| KeyError (name : str).

Definition lbrace : char := 123%N.
Definition rbrace : char := 125%N.

Definition is_digit (c : char) : bool := ((48 <=? c) && (c <=? 57))%N.

(** A character that may count as a decimal digit: an ASCII digit, or a
    character outside ASCII, which this model does not classify. *)
Definition maybe_digit (c : char) : bool := is_digit c || (128 <=? c)%N.

(** The characters that start what this model leaves out of a field:
    the colon of a format specification, the exclamation mark of a
    conversion and the opening bracket of an index. *)
Definition starts_unsupported (c : char) : bool :=
  ((c =? 58) || (c =? 33) || (c =? 91))%N.

(** A field name that is a key of the keyword arguments: not empty, not
    a number and without attribute access. *)
Definition plain_name (name : str) : bool :=
  match name with
  | [] => false
  | _ => negb (forallb maybe_digit name)
         && forallb (fun c => negb (c =? 46)%N) name
  end.

(** What the iterator yields before it ends or raises: the items, and
    the error it raises after them, if it does. *)
Definition scanned : Type := (list item * option error)%type.

Definition add (it : item) (r : scanned) : scanned := (it :: fst r, snd r).

(** The iterator over a format string. [field] is [None] while the scan
    is in literal text, of which [acc] holds the characters read so far
    in reverse; in a field it holds the literal before the field, and
    [acc] the characters of the name. A doubled brace ends a literal
    that keeps one brace. A field ends at its closing brace; an opening
    brace in the name is an error, and the scan stops as unsupported at
    the first character of a format specification, a conversion or an
    index, where the rules for braces change. *)
Fixpoint scan (field : option str) (acc : str) (s : str) : scanned :=
  match field with
  | None =>
      match s with
      | [] => (match acc with [] => [] | _ => [(rev acc, None)] end, None)
      | c :: r =>
          if N.eqb c lbrace then
            match r with
            | [] => ([], Some SingleOpen)
            | c2 :: r2 =>
                if N.eqb c2 lbrace
                then add (rev (c :: acc), None) (scan None [] r2)
                else scan (Some (rev acc)) [] r
            end
          else if N.eqb c rbrace then
            match r with
            | [] => ([], Some SingleClose)
            | c2 :: r2 =>
                if N.eqb c2 rbrace
                then add (rev (c :: acc), None) (scan None [] r2)
                else ([], Some SingleClose)
            end
          else scan None (c :: acc) r
      end
  | Some literal =>
      match s with
      | [] => ([], Some Unclosed)
      | c :: r =>
          if N.eqb c rbrace then
            if plain_name (rev acc)
            then add (literal, Some (rev acc)) (scan None [] r)
            else ([], Some Unsupported)
          else if N.eqb c lbrace then ([], Some BraceInField)
          else if starts_unsupported c then ([], Some Unsupported)
          else scan field (c :: acc) r
      end
  end.

(** [list(string.Formatter().parse(template))]: the iterator is run to
    its end, so an error anywhere in the template is raised. *)
Definition parse (template : str) : error + list item :=
  match scan None [] template with
  | (items, None) => inr items
  | (_, Some e) => inl e
  end.

Fixpoint lookup (name : str) (kwargs : list (str * str)) : option str :=
  match kwargs with
  | [] => None
  | (k, v) :: kwargs' =>
      if list_eq_dec N.eq_dec k name then Some v else lookup name kwargs'
  end.

(** [vformat] item by item: the literal, then the value of the field as
    it is; [after] is the error that the iterator raises once the items
    are used up. *)
Fixpoint render (items : list item) (after : option error)
    (kwargs : list (str * str)) : error + str :=
  match items with
  | [] => match after with Some e => inl e | None => inr [] end
  | (literal, field) :: items' =>
      match field with
      | None =>
          match render items' after kwargs with
          | inl e => inl e
          | inr rest => inr (literal ++ rest)
          end
      | Some name =>
          match lookup name kwargs with
          | None => inl (KeyError name)
          | Some value =>
              match render items' after kwargs with
              | inl e => inl e
              | inr rest => inr (literal ++ value ++ rest)
              end
          end
      end
  end.

(** [template.format] with keyword arguments: parsing and formatting go
    hand in hand, so the first error from the left is the one raised. *)
Definition format (template : str) (kwargs : list (str * str))
  : error + str :=
  let (items, after) := scan None [] template in
  render items after kwargs.

(** The fields of a template, in order. *)
Definition variables (items : list item) : list str :=
  flat_map (fun it => match snd it with Some name => [name] | None => [] end)
           items.

(** [ChatPromptTemplate.from_messages] on pairs of a role and a template
    in the default format: every template is parsed. *)
Fixpoint from_messages (messages : list (str * str))
  : error + list (str * list item) :=
  match messages with
  | [] => inr []
  | (role, template) :: messages' =>
      match parse template with
      | inl e => inl e
      | inr items =>
          match from_messages messages' with
          | inl e => inl e
          | inr prompt => inr ((role, items) :: prompt)
          end
      end
  end.

(** [prompt.format_messages] with keyword arguments. *)
Fixpoint format_messages (prompt : list (str * list item))
    (kwargs : list (str * str)) : error + list (str * str) :=
  match prompt with
  | [] => inr []
  | (role, items) :: prompt' =>
      match render items None kwargs with
      | inl e => inl e
      | inr text =>
          match format_messages prompt' kwargs with
          | inl e => inl e
          | inr messages => inr ((role, text) :: messages)
          end
      end
  end.

End Fmt.

(** [SYSTEM_PROMPT] (app.py, lines 23-72). *)
Definition SYSTEM_PROMPT : str :=
  [LF]
  ++ lit "Act as a senior software architect and expert developer. Your goal is to deeply understand the entire codebase provided, as if you must maintain, refactor, or extend it confidently. Become an expert on this project." ++ [LF]
  ++ [LF]
  ++ lit "**Note:** The user has provided a single file. Your analysis will be limited to this file, but apply the following principles to it. When you mention " ++ [DQUOTE] ++ lit "codebase" ++ [DQUOTE] ++ lit " or " ++ [DQUOTE] ++ lit "project," ++ [DQUOTE] ++ lit " refer to the contents of this single file." ++ [LF]
  ++ [LF]
  ++ lit "Task Breakdown" ++ [LF]
  ++ lit "1. Indexing, Structure, and Hierarchy" ++ [LF]
  ++ [LF]
  ++ lit "* Recursively read all files and folders. (In this case, just analyze the provided file). For this file, summarize:" ++ [LF]
  ++ lit "* Purpose and key responsibilities" ++ [LF]
  ++ lit "* Main classes, functions, and their interactions" ++ [LF]
  ++ lit "* Any special items (config, entrypoints, pipelines, scripts)" ++ [LF]
  ++ [LF]
  ++ lit "2. Entry Points and Termination Paths" ++ [LF]
  ++ [LF]
  ++ lit "* Identify all code entry points (main functions, HTTP endpoints, CLI commands, etc.)" ++ [LF]
  ++ lit "* For each, trace all major execution flows, both normal and exceptional (successful return, error, or exit)" ++ [LF]
  ++ lit "* Explicitly call out " ++ [DQUOTE] ++ lit "start" ++ [DQUOTE] ++ lit " (how code launches/receives) and " ++ [DQUOTE] ++ lit "end" ++ [DQUOTE] ++ lit " (shutdown, success, error reply, exit) for each flow" ++ [LF]
  ++ [LF]
  ++ lit "3. Multi-Lens Deep Analysis (PRSM)" ++ [LF]
  ++ lit "For each layer or major component/module, analyze from multiple perspectives:" ++ [LF]
  ++ [LF]
  ++ lit "* **Architecture Lens:** Components/modules, their boundaries, and connections (including imports, service calls, data sharing, cross-cutting concerns)" ++ [LF]
  ++ lit "* **Data Flow Lens:** How information and data objects move through the system (inputs, main processing, outputs, interactions, state management, data transformations)" ++ [LF]
  ++ lit "* **Security Lens:** Points with authentication, authorization, validation, sanitization, sensitive data flows, and major trust boundaries" ++ [LF]
  ++ lit "* **Business Logic Lens:** Core domain logic, main workflows, high-value actions (e.g. {{" ++ [DQUOTE] ++ lit "order processing," ++ [DQUOTE] ++ lit "}} {{" ++ [DQUOTE] ++ lit "workflow run" ++ [DQUOTE] ++ lit "}}), and where logic is concentrated" ++ [LF]
  ++ [LF]
  ++ lit "4. Call Graphs and Cross-File Relationships" ++ [LF]
  ++ [LF]
  ++ lit "* Map out call graphs: which functions/methods/classes call or depend on each other." ++ [LF]
  ++ lit "* Explicitly list highly coupled areas, utility/helper layers, and dependency injection points." ++ [LF]
  ++ [LF]
  ++ lit "5. Visualizations and Step-by-Step Codes" ++ [LF]
  ++ [LF]
  ++ lit "* Create a component/architecture diagram (using Mermaid.js), showing modules/services/controllers and their dependencies or interactions." ++ [LF]
  ++ lit "* For at least one important workflow (e.g. login, task run), create a sequence diagram with all actors/components, messages, branches (alt/opt), and data transfers." ++ [LF]
  ++ lit "* Include at least one data flow chart or block diagram for how key data structures are created, processed, and persisted." ++ [LF]
  ++ [LF]
  ++ lit "6. Explanations and Quick Reference" ++ [LF]
  ++ [LF]
  ++ lit "* Write high-level AND detailed summaries for each perspective." ++ [LF]
  ++ lit "* Produce a " ++ [8220%N] ++ lit "Navigating This Codebase" ++ [8221%N] ++ lit " section: best entry points for new devs, most central files, things to be careful about (tricky logic, fragile integrations, security hotspots)" ++ [LF]
  ++ [LF]
  ++ lit "7. Output Formatting" ++ [LF]
  ++ [LF]
  ++ lit "* Use markdown headers for each section (as above)." ++ [LF]
  ++ lit "* For diagrams, include the code block (e.g., ```mermaid ... ```)." ++ [LF]
  ++ lit "* All lists should be bulleted and concise." ++ [LF]
  ++ lit "* **--- NEW RULE ---** * **Ensure all Mermaid syntax is 100% valid.** For sequence diagrams, use `sequenceDiagram`. For flowcharts or component diagrams, use `graph LR` (Left-to-Right). **Avoid using `graph TD` (Top-Down)** as it can cause rendering errors." ++ [LF].

(** The template of the human message (line 153). *)
Definition HUMAN_TEMPLATE : str :=
  lit "Here is the Python code I need you to analyze:" ++ [LF]
  ++ [LF]
  ++ lit "```python" ++ [LF]
  ++ lit "{python_code}" ++ [LF]
  ++ lit "```".

(** The list given to [ChatPromptTemplate.from_messages] (lines 151-154). *)
Definition prompt_messages : list (str * str) :=
  [(lit "system", SYSTEM_PROMPT); (lit "human", HUMAN_TEMPLATE)].

(** A text without braces. *)
Definition brace_free (s : str) : bool :=
  lacks Fmt.lbrace s && lacks Fmt.rbrace s.

(** The text with every doubled brace, read from the left, replaced by
    one brace. *)
Fixpoint undouble (s : str) : str :=
  match s with
  | [] => []
  | c :: s' =>
      match s' with
      | [] => [c]
      | c' :: r =>
          if (N.eqb c Fmt.lbrace || N.eqb c Fmt.rbrace) && N.eqb c c'
          then c :: undouble r
          else c :: undouble s'
      end
  end.

(** The system message: the system prompt with its doubled braces
    undone. *)
Definition system_message : str := undouble SYSTEM_PROMPT.

(** The human message for a source text. *)
Definition human_message (code : str) : str :=
  lit "Here is the Python code I need you to analyze:" ++ [LF] ++ [LF]
  ++ lit "```python" ++ [LF] ++ code ++ [LF] ++ lit "```".

(** The messages sent to the model for a source text. *)
Definition payload (code : str) : list (str * str) :=
  [(lit "system", system_message); (lit "human", human_message code)].

(** ** The script as a whole *)

Section Script.

Variable Exn : Type.
Variable exn_str : Exn -> str.
Variable md_render : str -> Exn + str.
Variable st_mermaid : str -> option Exn.
Variable splitext_root : str -> str.

(** The content of the uploaded file and [bytes.decode] with the codec
    utf-8. *)
Variable bytes : Type.
Variable decode_utf8 : bytes -> Exn + str.

(** The exception that [ChatGoogleGenerativeAI(...)] raises, [None] when
    it returns. *)
Variable new_llm : option Exn.

(** The [ValueError] or [KeyError] of an error of the format strings. *)
Variable exn_of_fmt : Fmt.error -> Exn.

(** The call of the model on the formatted messages: [response.content],
    or the exception of the call. *)
Variable llm_invoke : list (str * str) -> Exn + str.

(** What the page receives and the call that leaves the process. *)
Inductive page : Type :=
| st_set_page_config (page_title page_icon layout : str)
| st_title (body : str)
| st_subheader (body : str)
| st_file_uploader (label type : str)
| st_spinner (text : str)
| st_text (body : str)
| show (c : ui)
| chain_invoke (messages : list (str * str)).

(** The body of the [try] of lines 143-193: the calls made, the value of
    [response] if it was bound, and the exception raised if one was. *)
Definition analyse (file_bytes : bytes) (file_name : str)
  : list page * option str * (Exn + unit) :=
  match decode_utf8 file_bytes with
  | inl e => ([], None, inl e)
  | inr code_content =>
      let shown :=
        [show (st_expander (lit "Show Uploaded Code"));
         show (st_code code_content (lit "python"))] in
      match new_llm with
      | Some e => (shown, None, inl e)
      | None =>
          match Fmt.from_messages prompt_messages with
          | inl err => (shown, None, inl (exn_of_fmt err))
          | inr prompt =>
              let spinning :=
                shown ++ [st_spinner ([129302%N] ++ lit " AI is performing a deep analysis of your code... This might take a moment.")] in
              match Fmt.format_messages prompt
                      [(lit "python_code", code_content)] with
              | inl err => (spinning, None, inl (exn_of_fmt err))
              | inr messages =>
                  match llm_invoke messages with
                  | inl e => (spinning ++ [chain_invoke messages], None, inl e)
                  | inr raw_output =>
                      let report :=
                        show_report exn_str md_render st_mermaid
                          splitext_root raw_output file_name in
                      (spinning
                       ++ [chain_invoke messages;
                           st_subheader ([9989%N] ++ lit " Analysis Complete")]
                       ++ map show (fst report),
                       Some raw_output, snd report)
                  end
              end
          end
      end
  end.

(** One run of the script (lines 15-19 and 134-198): [has_key] tells
    whether GOOGLE_API_KEY is in the environment, [uploaded_file] is what
    the uploader returns. *)
Definition script (has_key : bool) (uploaded_file : option (bytes * str))
  : list page :=
  [st_set_page_config (lit "Python Code Analyzer " ++ [128013%N]) [129302%N] (lit "wide");
   st_title ([129302%N] ++ lit " Advanced Python Code Analyzer");
   show (st_markdown (lit "Upload your Python file for a deep architectural analysis by Gemini."))]
  ++ (if negb has_key then
        [show (st_error ([128680%N] ++ lit " GOOGLE_API_KEY not found. Please add it to your .env file."))]
      else
        st_file_uploader (lit "Upload your Python file (.py)") (lit "py")
        :: match uploaded_file with
           | None => []
           | Some (file_bytes, file_name) =>
               let '(calls, response, result) := analyse file_bytes file_name in
               calls
               ++ match result with
                  | inr _ => []
                  | inl e =>
                      show (st_error (lit "An unexpected error occurred: " ++ exn_str e))
                      :: match response with
                         | Some content =>
                             [show (st_error (lit "Raw LLM output:")); st_text content]
                         | None => []
                         end
                  end
           end).

End Script.

Arguments analyse {Exn}.
Arguments script {Exn}.

(** The calls of the model in a run, each with its messages, in order. *)
Definition model_calls (run : list page) : list (list (str * str)) :=
  flat_map (fun c => match c with
                     | chain_invoke messages => [messages]
                     | _ => []
                     end) run.

(** ** Facts about prefixes and first occurrences *)

Section TextSearch.

(** Two splittings of one text: the longer head extends the shorter. *)
Lemma app_eq_app_le (a b c d : str) :
  a ++ b = c ++ d -> length c <= length a ->
  exists w, a = c ++ w /\ d = w ++ b.
Proof.
  intros H Hlen.
  destruct (app_eq_app _ _ _ _ H) as [w [[E1 E2]|[E1 E2]]].
  - exists w; auto.
  - subst. rewrite length_app in Hlen.
    destruct w; [|simpl in Hlen; lia].
    exists []. rewrite !app_nil_r. simpl. auto.
Qed.

Lemma strip_prefix_sound (l s r : str) :
  strip_prefix l s = Some r -> s = l ++ r.
Proof.
  revert s; induction l as [|c l IH]; intros s H; simpl in H.
  - now inversion H.
  - destruct s as [|x s]; [discriminate|].
    destruct (N.eqb_spec x c) as [->|]; [|discriminate].
    simpl; f_equal; now apply IH.
Qed.

Lemma strip_prefix_app (l r : str) : strip_prefix l (l ++ r) = Some r.
Proof.
  induction l as [|c l IH]; simpl; [reflexivity|].
  now rewrite N.eqb_refl.
Qed.

Lemma strip_prefix_app_r (l s r t : str) :
  strip_prefix l s = Some r -> strip_prefix l (s ++ t) = Some (r ++ t).
Proof.
  intros H; apply strip_prefix_sound in H; subst s.
  now rewrite <- app_assoc, strip_prefix_app.
Qed.

Lemma strip_prefix_none_app (l s t : str) :
  strip_prefix l s = None -> length l <= length s ->
  strip_prefix l (s ++ t) = None.
Proof.
  revert s; induction l as [|c l IH]; intros s H Hlen; simpl in *.
  - discriminate.
  - destruct s as [|x s]; simpl in *; [lia|].
    destruct (N.eqb x c); [|reflexivity].
    apply IH; [assumption|lia].
Qed.

Lemma find_sound (l s b a : str) :
  find l s = Some (b, a) -> s = b ++ l ++ a.
Proof.
  revert b; induction s as [|x s IH]; intros b H; simpl in H.
  - destruct (strip_prefix l []) eqn:E; [|discriminate].
    inversion H; subst. now apply strip_prefix_sound in E.
  - destruct (strip_prefix l (x :: s)) eqn:E.
    + inversion H; subst. now apply strip_prefix_sound in E.
    + destruct (find l s) as [[b' a']|] eqn:F; [|discriminate].
      inversion H; subst. simpl; f_equal. now apply IH.
Qed.

(** An occurrence of [l] makes [find] succeed, at that place or before. *)
Lemma find_complete (l u v : str) :
  exists b a, find l (u ++ l ++ v) = Some (b, a) /\ length b <= length u.
Proof.
  induction u as [|x u IH].
  - exists [], v. simpl app.
    destruct (l ++ v) eqn:E; simpl; rewrite <- E, strip_prefix_app;
      split; auto.
  - simpl app. simpl find.
    destruct (strip_prefix l (x :: u ++ l ++ v)) eqn:E.
    + eexists [], _; split; [reflexivity|simpl; lia].
    + destruct IH as (b & a & -> & Hb).
      exists (x :: b), a; split; [reflexivity|simpl; lia].
Qed.

Lemma find_none_no_occurrence (l s u v : str) :
  find l s = None -> s <> u ++ l ++ v.
Proof.
  intros H ->. destruct (find_complete l u v) as (b & a & E & _).
  congruence.
Qed.

Lemma find_none_suffix (l u v : str) :
  find l (u ++ v) = None -> find l v = None.
Proof.
  intros H. destruct (find l v) as [[b a]|] eqn:E; [|reflexivity].
  apply find_sound in E. subst v.
  exfalso. apply (find_none_no_occurrence l _ (u ++ b) a H).
  now rewrite <- app_assoc.
Qed.

Lemma find_length (l s b a : str) :
  find l s = Some (b, a) -> length s = length b + length l + length a.
Proof.
  intros H. apply find_sound in H. subst. rewrite !length_app. lia.
Qed.

(** A found occurrence stays the first one when text is appended. *)
Lemma find_app_some (l s b a t : str) :
  find l s = Some (b, a) -> find l (s ++ t) = Some (b, a ++ t).
Proof.
  revert b; induction s as [|x s IH]; intros b H; simpl in H.
  - destruct (strip_prefix l []) eqn:E; [|discriminate].
    inversion H; subst.
    pose proof (strip_prefix_app_r _ _ _ t E) as E'. simpl in E'.
    simpl app at 1.
    destruct t; simpl; rewrite E'; reflexivity.
  - simpl app. simpl find.
    destruct (strip_prefix l (x :: s)) eqn:E.
    + inversion H; subst.
      pose proof (strip_prefix_app_r _ _ _ t E) as E'. simpl in E'.
      now rewrite E'.
    + destruct (find l s) as [[b' a']|] eqn:F; [|discriminate].
      inversion H; subst.
      pose proof (find_length _ _ _ _ F) as Hl.
      pose proof (strip_prefix_none_app l (x :: s) t E) as E'.
      simpl in E'. rewrite E' by lia.
      now rewrite (IH b' eq_refl).
Qed.

Lemma unbordered_no_overlap (l d r : str) :
  unbordered l = true -> 0 < length d < length l ->
  strip_prefix l (d ++ l ++ r) = None.
Proof.
  intros U Hd.
  destruct (strip_prefix l (d ++ l ++ r)) as [t|] eqn:E; [|reflexivity].
  exfalso. apply strip_prefix_sound in E.
  unfold unbordered in U. rewrite forallb_forall in U.
  specialize (U (length d)).
  rewrite in_seq in U. specialize (U ltac:(lia)).
  assert (Hk : skipn (length d) (d ++ l ++ r) = l ++ r).
  { rewrite skipn_app, skipn_all, Nat.sub_diag. reflexivity. }
  rewrite E in Hk.
  rewrite skipn_app in Hk.
  replace (length d - length l) with 0 in Hk by lia. simpl in Hk.
  assert (Hp : strip_prefix (skipn (length d) l) (l ++ r) <> None).
  { rewrite <- Hk, strip_prefix_app. discriminate. }
  destruct (strip_prefix (skipn (length d) l) l) eqn:F; [discriminate|].
  apply Hp. apply strip_prefix_none_app; [assumption|].
  rewrite length_skipn. lia.
Qed.

(** The fence after a text without fence is the first one to be found. *)
Lemma find_exact (l d r : str) :
  unbordered l = true -> l <> [] -> find l d = None ->
  find l (d ++ l ++ r) = Some (d, r).
Proof.
  intros U Hne. induction d as [|x d IH]; intros H.
  - simpl app. destruct (l ++ r) eqn:E; simpl; rewrite <- E;
      now rewrite strip_prefix_app.
  - simpl in H.
    destruct (strip_prefix l (x :: d)) eqn:E; [discriminate|].
    destruct (find l d) as [[b a]|] eqn:F; [discriminate|].
    simpl app. simpl find.
    assert (E' : strip_prefix l (x :: d ++ l ++ r) = None).
    { destruct (le_lt_dec (length l) (length (x :: d))) as [Hle|Hlt].
      - apply (strip_prefix_none_app l (x :: d) (l ++ r) E Hle).
      - apply (unbordered_no_overlap l (x :: d) r U).
        simpl in *; lia. }
    rewrite E'. now rewrite IH.
Qed.

End TextSearch.

(** ** The matcher on the fence pattern *)

Section Matcher.

Lemma match_here_literals (l : str) (p : Re.pattern) (s : str) :
  Re.match_here (map Re.Literal l ++ p) s =
  match strip_prefix l s with
  | Some r => Re.match_here p r
  | None => None
  end.
Proof.
  revert s; induction l as [|c l IH]; intros s; simpl; [reflexivity|].
  destruct s as [|x s]; [reflexivity|].
  destruct (N.eqb x c); [apply IH|reflexivity].
Qed.

Lemma match_here_literal_only (l s : str) :
  Re.match_here (map Re.Literal l) s =
  match strip_prefix l s with
  | Some r => Some ([], r)
  | None => None
  end.
Proof.
  rewrite <- (app_nil_r (map Re.Literal l)), match_here_literals.
  now destruct (strip_prefix l s).
Qed.

(** The lazy group followed by a literal text stops at the first
    occurrence of that text. *)
Lemma match_here_lazy (l s : str) :
  Re.match_here (Re.LazyAnyGroup :: map Re.Literal l) s =
  match find l s with
  | Some (g, r) => Some ([g], r)
  | None => None
  end.
Proof.
  cbn [Re.match_here].
  induction s as [|x s IH].
  - rewrite match_here_literal_only. cbn [find].
    now destruct (strip_prefix l []).
  - rewrite match_here_literal_only. cbn [find].
    destruct (strip_prefix l (x :: s)); [reflexivity|].
    rewrite IH. now destruct (find l s) as [[g r]|].
Qed.

Lemma match_here_mermaid (s : str) :
  Re.match_here mermaid_pattern s =
  match strip_prefix fence_open s with
  | Some t =>
      match find fence_close t with
      | Some (g, r) => Some ([g], r)
      | None => None
      end
  | None => None
  end.
Proof.
  unfold mermaid_pattern. rewrite match_here_literals.
  destruct (strip_prefix fence_open s); [|reflexivity].
  apply match_here_lazy.
Qed.

(** [search] on the pattern of the program is that scan: an opening
    marker that no closing fence follows cannot be followed by a match
    further right either. *)
Lemma search_mermaid (s : str) :
  Re.search mermaid_pattern s =
  match next_fence s with
  | Some (b, g, r) => Some (b, [g], r)
  | None => None
  end.
Proof.
  unfold next_fence.
  induction s as [|x s IH]; cbn [Re.search find]; rewrite match_here_mermaid.
  - destruct (strip_prefix fence_open []) as [t|]; [|reflexivity].
    now destruct (find fence_close t) as [[g r]|].
  - destruct (strip_prefix fence_open (x :: s)) as [t|] eqn:E.
    + destruct (find fence_close t) as [[g r]|] eqn:F; [reflexivity|].
      rewrite IH.
      destruct (find fence_open s) as [[b t']|] eqn:G; [|reflexivity].
      assert (F' : find fence_close t' = None).
      { apply strip_prefix_sound in E. apply find_sound in G.
        rewrite G in E.
        change (x :: b ++ fence_open ++ t')
          with ((x :: b) ++ fence_open ++ t') in E.
        rewrite app_assoc in E.
        destruct (app_eq_app_le _ _ _ _ E) as (w & _ & ->).
        { rewrite length_app. lia. }
        now apply find_none_suffix in F. }
      now rewrite F'.
    + rewrite IH.
      destruct (find fence_open s) as [[b t']|]; [|reflexivity].
      now destruct (find fence_close t') as [[g r]|].
Qed.

Lemma next_fence_sound (s b g r : str) :
  next_fence s = Some (b, g, r) ->
  s = b ++ fence_open ++ g ++ fence_close ++ r.
Proof.
  unfold next_fence. intros H.
  destruct (find fence_open s) as [[b' t]|] eqn:E; [|discriminate].
  destruct (find fence_close t) as [[g' r']|] eqn:F; [|discriminate].
  inversion H; subst.
  apply find_sound in E, F. now subst.
Qed.

Lemma next_fence_shorter (s b g r : str) :
  next_fence s = Some (b, g, r) -> length r < length s.
Proof.
  intros H. apply next_fence_sound in H. subst.
  rewrite !length_app. simpl. lia.
Qed.

(** A fenced block anywhere in the text makes the scan succeed. *)
Lemma next_fence_complete (u d v : str) :
  next_fence (u ++ fence_open ++ d ++ fence_close ++ v) <> None.
Proof.
  unfold next_fence.
  destruct (find_complete fence_open u (d ++ fence_close ++ v))
    as (b & t & E & Hb).
  rewrite E.
  pose proof (find_sound _ _ _ _ E) as Hs.
  assert (exists w, t = w ++ fence_close ++ v) as [w ->].
  { rewrite (app_assoc u), (app_assoc (u ++ fence_open)),
      (app_assoc b) in Hs.
    destruct (app_eq_app_le _ _ _ _ Hs) as (w & _ & ->).
    { rewrite !length_app. lia. }
    now exists w. }
  destruct (find_complete fence_close w v) as (g & r & F & _).
  rewrite F. discriminate.
Qed.

End Matcher.

(** ** The split as a scan *)

Section Scan.

Lemma split_fuel_stable (n m : nat) (s : str) :
  length s < n -> length s < m ->
  Re.split_fuel n mermaid_pattern s = Re.split_fuel m mermaid_pattern s.
Proof.
  revert m s; induction n as [|n IH]; intros m s Hn Hm; [lia|].
  destruct m as [|m]; [lia|].
  cbn [Re.split_fuel]. rewrite search_mermaid.
  destruct (next_fence s) as [[[b g] r]|] eqn:E; [|reflexivity].
  pose proof (next_fence_shorter _ _ _ _ E).
  cbn [app]. do 2 f_equal. apply IH; lia.
Qed.

(** One round of [re.split] on the pattern of the program. *)
Lemma split_unfold (s : str) :
  Re.split mermaid_pattern s =
  match next_fence s with
  | Some (b, g, r) => b :: g :: Re.split mermaid_pattern r
  | None => [s]
  end.
Proof.
  unfold Re.split at 1. cbn [Re.split_fuel]. rewrite search_mermaid.
  destruct (next_fence s) as [[[b g] r]|] eqn:E; [|reflexivity].
  pose proof (next_fence_shorter _ _ _ _ E).
  cbn [app]. do 2 f_equal. unfold Re.split. apply split_fuel_stable; lia.
Qed.

Lemma finditer_fuel_stable (n m pos : nat) (s : str) :
  length s < n -> length s < m ->
  Re.finditer_fuel n mermaid_pattern pos s =
  Re.finditer_fuel m mermaid_pattern pos s.
Proof.
  revert m pos s; induction n as [|n IH]; intros m pos s Hn Hm; [lia|].
  destruct m as [|m]; [lia|].
  cbn [Re.finditer_fuel]. rewrite search_mermaid.
  destruct (next_fence s) as [[[b g] r]|] eqn:E; [|reflexivity].
  pose proof (next_fence_shorter _ _ _ _ E).
  cbv zeta. f_equal. apply IH; lia.
Qed.

Lemma finditer_at_unfold (pos : nat) (s : str) :
  finditer_at pos s =
  match next_fence s with
  | Some (b, g, r) =>
      Re.mkMatch (pos + length b) (pos + (length s - length r)) [g]
      :: finditer_at (pos + (length s - length r)) r
  | None => []
  end.
Proof.
  unfold finditer_at at 1. cbn [Re.finditer_fuel]. rewrite search_mermaid.
  destruct (next_fence s) as [[[b g] r]|] eqn:E; [|reflexivity].
  pose proof (next_fence_shorter _ _ _ _ E).
  cbv zeta. f_equal. unfold finditer_at. apply finditer_fuel_stable; lia.
Qed.

(** Induction along the scan. *)
Lemma scan_ind (P : str -> Prop) :
  (forall s, next_fence s = None -> P s) ->
  (forall s b g r, next_fence s = Some (b, g, r) -> P r -> P s) ->
  forall s, P s.
Proof.
  intros Hnone Hsome s.
  remember (length s) as n eqn:Hn.
  revert s Hn. induction n as [n IH] using lt_wf_ind. intros s ->.
  destruct (next_fence s) as [[[b g] r]|] eqn:E.
  - apply (Hsome s b g r E).
    apply (IH (length r)); [|reflexivity].
    now apply next_fence_shorter in E.
  - now apply Hnone.
Qed.

Lemma split_not_nil (s : str) : Re.split mermaid_pattern s <> [].
Proof.
  rewrite split_unfold.
  destruct (next_fence s) as [[[b g] r]|]; discriminate.
Qed.

End Scan.


(** ** Segments *)

Section Segments.

Lemma segment_of_SS (i : nat) (part : str) :
  segment_of (S (S i)) part = segment_of i part.
Proof.
  unfold segment_of.
  replace (S (S i)) with (i + 1 * 2) by lia.
  now rewrite Nat.Div0.mod_add.
Qed.

Lemma segment_of_even (k : nat) (part : str) :
  segment_of (2 * k) part = Prose part.
Proof.
  unfold segment_of. rewrite Nat.mul_comm, Nat.Div0.mod_mul. reflexivity.
Qed.

Lemma segment_of_odd (k : nat) (part : str) :
  segment_of (2 * k + 1) part = Diagram part.
Proof.
  unfold segment_of.
  replace (2 * k + 1) with (1 + k * 2) by lia.
  rewrite Nat.Div0.mod_add. reflexivity.
Qed.

Lemma segments_from_SS (i : nat) (l : list str) :
  map (fun ip => segment_of (fst ip) (snd ip)) (enumerate_from (S (S i)) l) =
  map (fun ip => segment_of (fst ip) (snd ip)) (enumerate_from i l).
Proof.
  revert i; induction l as [|x l IH]; intros i; [reflexivity|].
  cbn [enumerate_from map fst snd].
  now rewrite segment_of_SS, IH.
Qed.

Lemma segments_of_cons2 (a b : str) (l : list str) :
  segments_of (a :: b :: l) = Prose a :: Diagram b :: segments_of l.
Proof.
  unfold segments_of, enumerate. cbn [enumerate_from map fst snd].
  now rewrite segments_from_SS.
Qed.

(** One round of the scan, on segments. *)
Lemma segments_unfold (s : str) :
  segments s =
  match next_fence s with
  | Some (b, g, r) => Prose b :: Diagram g :: segments r
  | None => [Prose s]
  end.
Proof.
  unfold segments. rewrite split_unfold.
  destruct (next_fence s) as [[[b g] r]|]; [|reflexivity].
  apply segments_of_cons2.
Qed.

Lemma segments_not_nil (s : str) : segments s <> [].
Proof.
  rewrite segments_unfold.
  destruct (next_fence s) as [[[b g] r]|]; discriminate.
Qed.

Lemma segments_of_length (parts : list str) :
  length (segments_of parts) = length parts.
Proof.
  unfold segments_of, enumerate. rewrite length_map.
  generalize 0. induction parts as [|x l IH]; intros n; simpl; auto.
Qed.

Lemma segments_of_nth (parts : list str) (i : nat) :
  nth_error (segments_of parts) i =
  option_map (segment_of i) (nth_error parts i).
Proof.
  unfold segments_of, enumerate.
  rewrite <- (Nat.add_0_l i) at 2.
  generalize 0 as n.
  revert i; induction parts as [|x l IH]; intros i n.
  - now destruct i.
  - destruct i as [|i]; cbn [enumerate_from map nth_error option_map fst snd].
    + now rewrite Nat.add_0_r.
    + rewrite IH. now rewrite Nat.add_succ_comm.
Qed.

Lemma substr_mid (a b c : str) :
  substr (a ++ b ++ c) (length a) (length a + length b) = b.
Proof.
  unfold substr.
  rewrite skipn_app, skipn_all, Nat.sub_diag. cbn [skipn app].
  replace (length a + length b - length a) with (length b) by lia.
  rewrite firstn_app, firstn_all, Nat.sub_diag. cbn [firstn].
  apply app_nil_r.
Qed.

Lemma substr_to_end (a b : str) :
  substr (a ++ b) (length a) (length (a ++ b)) = b.
Proof.
  rewrite <- (app_nil_r b) at 1. rewrite length_app.
  apply (substr_mid a b []).
Qed.

(** The parts of the split and the matches of the scan tile the text:
    prose, fence pair, prose, ..., prose. *)
Lemma split_tiles (s : str) :
  forall pfx : str,
    let w := pfx ++ s in
    let found := finditer_at (length pfx) s in
    let parts := Re.split mermaid_pattern s in
    length parts = 2 * length found + 1 /\
    (forall k, k <= length found ->
       nth_error parts (2 * k) =
       Some (substr w (prose_start (length pfx) found k)
                      (prose_end w found k))) /\
    (forall k m, nth_error found k = Some m ->
       exists d, Re.m_groups m = [d] /\
                 substr w (Re.m_start m) (Re.m_end m)
                 = fence_open ++ d ++ fence_close /\
                 nth_error parts (2 * k + 1) = Some d).
Proof.
  induction s as [s Hnone | s b g r E IH] using scan_ind; intros pfx; cbv zeta.
  - rewrite finditer_at_unfold, split_unfold, Hnone.
    split; [reflexivity|]. split.
    + intros k Hk. cbn [length] in Hk.
      assert (k = 0) as -> by lia.
      change (2 * 0) with 0. cbn [nth_error prose_start prose_end].
      now rewrite substr_to_end.
    + intros [|k] m H; discriminate.
  - rewrite finditer_at_unfold, split_unfold, E.
    pose proof (next_fence_sound _ _ _ _ E) as Hs.
    set (e := length pfx + (length s - length r)).
    set (m0 := Re.mkMatch (length pfx + length b) e [g]).
    set (fence := fence_open ++ g ++ fence_close).
    assert (He : e = length (pfx ++ b ++ fence)).
    { unfold e, fence. rewrite Hs. rewrite !length_app. lia. }
    assert (Hw : pfx ++ s = (pfx ++ b ++ fence) ++ r).
    { unfold fence. rewrite Hs. now rewrite <- !app_assoc. }
    specialize (IH (pfx ++ b ++ fence)). cbv zeta in IH.
    rewrite <- He, <- Hw in IH.
    destruct IH as (IHlen & IHprose & IHfound).
    split; [cbn [length]; lia|]. split.
    + intros [|k] Hk.
      * change (2 * 0) with 0. cbn [nth_error prose_start prose_end].
        unfold m0. cbn [Re.m_start]. f_equal.
        rewrite Hs. symmetry. apply substr_mid.
      * replace (2 * S k) with (S (S (2 * k))) by lia.
        cbn [nth_error]. rewrite IHprose by (cbn [length] in Hk; lia).
        f_equal. f_equal.
        destruct k; reflexivity.
    + intros [|k] m H; cbn [nth_error] in H.
      * inversion H; subst m. exists g.
        split; [reflexivity|]. split; [|reflexivity].
        unfold m0. cbn [Re.m_start Re.m_end].
        rewrite He, Hs.
        replace (pfx ++ b ++ fence_open ++ g ++ fence_close ++ r)
          with ((pfx ++ b) ++ fence ++ r)
          by (unfold fence; now rewrite <- !app_assoc).
        replace (length pfx + length b) with (length (pfx ++ b))
          by apply length_app.
        replace (length (pfx ++ b ++ fence))
          with (length (pfx ++ b) + length fence)
          by (rewrite !length_app; lia).
        apply substr_mid.
      * destruct (IHfound k m H) as (d & Hg & Hsub & Hnth).
        exists d. split; [assumption|]. split; [assumption|].
        replace (2 * S k + 1) with (S (S (2 * k + 1))) by lia.
        exact Hnth.
Qed.

Lemma finditer_is_scan (s : str) :
  Re.finditer mermaid_pattern s = finditer_at 0 s.
Proof. reflexivity. Qed.

Lemma diagram_count_scan (s : str) :
  forall pos, length (filter is_diagram (segments s))
              = length (finditer_at pos s).
Proof.
  induction s as [s Hnone | s b g r E IH] using scan_ind; intros pos;
    rewrite segments_unfold, finditer_at_unfold.
  - now rewrite Hnone.
  - rewrite E. cbn [filter is_diagram length]. f_equal. apply IH.
Qed.

(** *** The fence pairs read off the text *)

Lemma fence_pairs_from_stable (n m pos : nat) (s : str) :
  length s < n -> length s < m ->
  fence_pairs_from n pos s = fence_pairs_from m pos s.
Proof.
  revert m pos s; induction n as [|n IH]; intros m pos s Hn Hm; [lia|].
  destruct m as [|m]; [lia|].
  cbn [fence_pairs_from].
  destruct (next_fence s) as [[[b g] r]|] eqn:E; [|reflexivity].
  pose proof (next_fence_shorter _ _ _ _ E).
  cbv zeta. f_equal. apply IH; lia.
Qed.

(** One round of the reading: the fuel is enough for every text. *)
Lemma fence_pairs_from_unfold (pos : nat) (s : str) :
  fence_pairs_from (S (length s)) pos s =
  match next_fence s with
  | Some (b, g, r) =>
      (pos + length b, g)
      :: fence_pairs_from (S (length r))
           (pos + length b + length (fence_open ++ g ++ fence_close)) r
  | None => []
  end.
Proof.
  generalize (Nat.lt_succ_diag_r (length s)).
  generalize (S (length s)) as n. intros [|n] Hn; [lia|].
  destruct (next_fence s) as [[[b g] r]|] eqn:E.
  - pose proof (next_fence_shorter _ _ _ _ E).
    set (rest := fence_pairs_from (S (length r))).
    cbn [fence_pairs_from]. rewrite E. cbv zeta. f_equal.
    apply fence_pairs_from_stable; lia.
  - cbn [fence_pairs_from]. now rewrite E.
Qed.

(** The matches of the pattern are the fence pairs of the text. *)
Lemma finditer_at_pairs (s : str) :
  forall pos,
    finditer_at pos s
    = map match_of_pair (fence_pairs_from (S (length s)) pos s).
Proof.
  induction s as [s Hnone | s b g r E IH] using scan_ind; intros pos;
    rewrite finditer_at_unfold, fence_pairs_from_unfold.
  - now rewrite Hnone.
  - rewrite E. cbn [map].
    assert (He : pos + (length s - length r)
                 = pos + length b
                   + length (fence_open ++ g ++ fence_close)).
    { rewrite (next_fence_sound _ _ _ _ E) at 1.
      rewrite !length_app. lia. }
    rewrite He, IH. reflexivity.
Qed.

(** The diagram segments hold the interiors of the fence pairs. *)
Lemma diagram_texts_pairs (s : str) :
  forall pos,
    diagram_texts (segments s)
    = map snd (fence_pairs_from (S (length s)) pos s).
Proof.
  induction s as [s Hnone | s b g r E IH] using scan_ind; intros pos;
    rewrite segments_unfold, fence_pairs_from_unfold.
  - now rewrite Hnone.
  - rewrite E. cbn [diagram_texts flat_map app map snd]. f_equal. apply IH.
Qed.

(** A text has no fence pair exactly when no opening marker in it is
    followed by a closing fence. *)
Lemma fence_pairs_none (s : str) :
  fence_pairs s = [] <->
  forall u d v, s <> u ++ fence_open ++ d ++ fence_close ++ v.
Proof.
  unfold fence_pairs. rewrite fence_pairs_from_unfold. split.
  - intros H u d v ->.
    pose proof (next_fence_complete u d v) as Hc.
    destruct (next_fence (u ++ fence_open ++ d ++ fence_close ++ v))
      as [[[b g] r]|]; [discriminate|now apply Hc].
  - intros H.
    destruct (next_fence s) as [[[b g] r]|] eqn:E; [exfalso|reflexivity].
    apply (H b g r). now apply next_fence_sound.
Qed.

End Segments.

(** ** Properties of the segmentation *)

Section Segmentation.

Lemma is_diagram_segment_of (i : nat) (part : str) :
  is_diagram (segment_of i part) = Nat.odd i.
Proof.
  unfold segment_of.
  rewrite <- Nat.bit0_mod, Nat.bit0_odd.
  now destruct (Nat.odd i).
Qed.

(** C1 -- Segmentation parity. For every input text the split on the fence
    pattern alternates, and its diagram segments are the well-formed fence
    pairs of the text. The fence pairs are read off the text from the
    left (the first opening marker, the first closing fence after it, and
    on from there); there is none exactly when no opening marker of the
    text is followed by a closing fence, and they are the matches that
    the pattern finds. The element at each even index [2k] is the prose
    text that lies between the fence pairs around it (from the end of the
    pair before it to the start of the pair after it); the [k]-th fence
    pair stands in the text at its position, and the element at the odd
    index [2k+1] is the diagram segment of its interior; an element is a
    diagram exactly when its index is odd; the texts of the diagram
    segments are the interiors of the fence pairs, in order, and the
    number of diagram segments is the number of fence pairs of the
    text. *)
Theorem segmentation_parity (s : str) :
  let found := Re.finditer mermaid_pattern s in
  let pairs := fence_pairs s in
  found = map match_of_pair pairs /\
  (pairs = [] <->
   forall u d v, s <> u ++ fence_open ++ d ++ fence_close ++ v) /\
  (forall k, k <= length pairs ->
     nth_error (segments s) (2 * k) =
     Some (Prose (substr s (prose_start 0 found k) (prose_end s found k)))) /\
  (forall k m, nth_error found k = Some m ->
     exists d, Re.m_groups m = [d] /\
               substr s (Re.m_start m) (Re.m_end m)
               = fence_open ++ d ++ fence_close /\
               nth_error (segments s) (2 * k + 1) = Some (Diagram d)) /\
  (forall k start d, nth_error pairs k = Some (start, d) ->
     substr s start (start + length (fence_open ++ d ++ fence_close))
     = fence_open ++ d ++ fence_close /\
     nth_error (segments s) (2 * k + 1) = Some (Diagram d)) /\
  (forall i seg, nth_error (segments s) i = Some seg ->
     is_diagram seg = Nat.odd i) /\
  diagram_texts (segments s) = map snd pairs /\
  length (filter is_diagram (segments s)) = length pairs.
Proof.
  cbv zeta. rewrite finditer_is_scan.
  pose proof (finditer_at_pairs s 0) as Hpairs. fold (fence_pairs s) in Hpairs.
  destruct (split_tiles s []) as (_ & Hprose & Hfound).
  cbn [app length] in Hprose, Hfound.
  assert (Hodd : forall k m, nth_error (finditer_at 0 s) k = Some m ->
            exists d, Re.m_groups m = [d] /\
                      substr s (Re.m_start m) (Re.m_end m)
                      = fence_open ++ d ++ fence_close /\
                      nth_error (segments s) (2 * k + 1) = Some (Diagram d)).
  { intros k m Hm. destruct (Hfound k m Hm) as (d & Hg & Hsub & Hnth).
    exists d. repeat split; try assumption.
    unfold segments. rewrite segments_of_nth, Hnth. cbn [option_map].
    now rewrite segment_of_odd. }
  split; [exact Hpairs|]. split; [apply fence_pairs_none|].
  split; [|split; [exact Hodd|]]; [|split; [|split; [|split]]].
  - intros k Hk. unfold segments.
    rewrite segments_of_nth, (Hprose k); cycle 1.
    { rewrite Hpairs, length_map. exact Hk. }
    cbn [option_map]. now rewrite segment_of_even.
  - intros k start d Hk.
    destruct (Hodd k (match_of_pair (start, d))) as (d' & Hg & Hsub & Hnth).
    { rewrite Hpairs. now apply map_nth_error. }
    cbn [match_of_pair Re.m_groups Re.m_start Re.m_end fst snd] in Hg, Hsub.
    inversion Hg; subst d'. now split.
  - intros i seg. unfold segments. rewrite segments_of_nth.
    destruct (nth_error (Re.split mermaid_pattern s) i) as [part|];
      [|discriminate].
    cbn [option_map]. intros H; inversion H.
    apply is_diagram_segment_of.
  - apply diagram_texts_pairs.
  - rewrite (diagram_count_scan s 0), Hpairs. apply length_map.
Qed.

(** C2 -- Round trip. For every input text (well-formed fences or not),
    joining the split in order, each prose segment as it is and each
    diagram segment between the opening marker and the closing fence,
    gives the input back, character for character. *)
Theorem round_trip_reconstruction (s : str) :
  join (map restore (segments s)) = s.
Proof.
  induction s as [s Hnone | s b g r E IH] using scan_ind;
    rewrite segments_unfold.
  - rewrite Hnone. cbn. apply app_nil_r.
  - rewrite E. unfold join in *. cbn [map restore concat]. rewrite IH.
    rewrite (next_fence_sound _ _ _ _ E) at 1.
    now rewrite <- !app_assoc.
Qed.

(** C7 -- No fence, one segment. An input text in which no opening marker
    is followed by a closing fence is split into exactly one part, the
    whole text, which is a prose segment. *)
Theorem no_fence_single_prose (s : str) :
  (forall u d v, s <> u ++ fence_open ++ d ++ fence_close ++ v) ->
  Re.split mermaid_pattern s = [s] /\ segments s = [Prose s].
Proof.
  intros H.
  assert (E : next_fence s = None).
  { destruct (next_fence s) as [[[b g] r]|] eqn:E; [|reflexivity].
    exfalso. apply (H b g r). now apply next_fence_sound. }
  rewrite segments_unfold, split_unfold, E. now split.
Qed.

(** A text with an opening marker that nothing closes. *)
Lemma no_fence_single_prose_witness :
  let s := lit "# Report" ++ [LF] ++ lit "```mermaid" ++ [LF] ++ lit "A-->B" in
  Re.split mermaid_pattern s = [s] /\ segments s = [Prose s].
Proof.
  cbv zeta. apply no_fence_single_prose.
  intros u d v H.
  apply (next_fence_complete u d v). rewrite <- H. reflexivity.
Defined.

Lemma last_cons2 (a b : Segment) (l : list Segment) (d : Segment) :
  l <> [] -> last (a :: b :: l) d = last l d.
Proof. intros H. destruct l; [contradiction|reflexivity]. Qed.

(** C9 -- Odd length. For every input text the split has [2k+1] elements,
    [k] being the number of fence pairs the pattern finds, so the first
    and the last segment are prose segments; both are empty when the
    text is just one fenced block. *)
Theorem split_length_odd (s : str) :
  length (Re.split mermaid_pattern s)
  = 2 * length (Re.finditer mermaid_pattern s) + 1 /\
  Nat.odd (length (Re.split mermaid_pattern s)) = true /\
  (exists first, hd_error (segments s) = Some (Prose first)) /\
  (exists final, last (segments s) (Diagram []) = Prose final) /\
  segments (fence_open ++ lit "A-->B" ++ fence_close)
  = [Prose []; Diagram (lit "A-->B"); Prose []].
Proof.
  destruct (split_tiles s []) as (Hlen & _ & _).
  cbn [length] in Hlen. rewrite <- finditer_is_scan in Hlen.
  split; [exact Hlen|]. split.
  { rewrite Hlen, Nat.add_1_r, Nat.odd_succ. apply Nat.even_spec.
    now exists (length (Re.finditer mermaid_pattern s)). }
  split; [|split; [|reflexivity]].
  - rewrite segments_unfold.
    destruct (next_fence s) as [[[b g] r]|]; eexists; reflexivity.
  - clear Hlen.
    induction s as [s Hnone | s b g r E IH] using scan_ind;
      rewrite segments_unfold.
    + rewrite Hnone. now exists s.
    + rewrite E. rewrite last_cons2 by apply segments_not_nil.
      exact IH.
Qed.

(** *** Text appended to a text already split *)

Lemma next_fence_app (s b g r t : str) :
  next_fence s = Some (b, g, r) ->
  next_fence (s ++ t) = Some (b, g, r ++ t).
Proof.
  unfold next_fence. intros H.
  destruct (find fence_open s) as [[b' t0]|] eqn:E; [|discriminate].
  destruct (find fence_close t0) as [[g' r']|] eqn:F; [|discriminate].
  inversion H; subst.
  rewrite (find_app_some _ _ _ _ t E), (find_app_some _ _ _ _ t F).
  reflexivity.
Qed.

Lemma removelast_cons2 (a b : str) (l : list str) :
  l <> [] -> removelast (a :: b :: l) = a :: b :: removelast l.
Proof. intros H. destruct l; [contradiction|reflexivity]. Qed.

Lemma last_str_cons2 (a b : str) (l : list str) (d : str) :
  l <> [] -> last (a :: b :: l) d = last l d.
Proof. intros H. destruct l; [contradiction|reflexivity]. Qed.

(** The fence pairs matched in a text stay matched when text is appended:
    only the trailing prose is scanned again. *)
Lemma split_app (pre t : str) :
  Re.split mermaid_pattern (pre ++ t) =
  removelast (Re.split mermaid_pattern pre)
  ++ Re.split mermaid_pattern (last (Re.split mermaid_pattern pre) [] ++ t).
Proof.
  induction pre as [s Hnone | s b g r E IH] using scan_ind.
  - rewrite (split_unfold s), Hnone. reflexivity.
  - rewrite (split_unfold (s ++ t)), (next_fence_app _ _ _ _ t E).
    rewrite (split_unfold s), E.
    rewrite removelast_cons2, last_str_cons2 by apply split_not_nil.
    rewrite IH. reflexivity.
Qed.

Lemma unbordered_fence_open : unbordered fence_open = true.
Proof. reflexivity. Qed.

Lemma unbordered_fence_close : unbordered fence_close = true.
Proof. reflexivity. Qed.

(** A fenced block with no closing fence inside, after a text with no
    opening marker, is the next match. *)
Lemma next_fence_exact (t d x : str) :
  find fence_open t = None -> find fence_close d = None ->
  next_fence (t ++ fence_open ++ d ++ fence_close ++ x) = Some (t, d, x).
Proof.
  intros Ht Hd. unfold next_fence.
  rewrite (find_exact fence_open t _ unbordered_fence_open)
    by (discriminate || assumption).
  rewrite (find_exact fence_close d _ unbordered_fence_close)
    by (discriminate || assumption).
  reflexivity.
Qed.

(** An opening marker that no closing fence follows, after a text with no
    opening marker: nothing matches. *)
Lemma next_fence_unterminated (t rest : str) :
  find fence_open t = None -> find fence_close rest = None ->
  next_fence (t ++ fence_open ++ rest) = None.
Proof.
  intros Ht Hr. unfold next_fence.
  rewrite (find_exact fence_open t _ unbordered_fence_open)
    by (discriminate || assumption).
  now rewrite Hr.
Qed.

End Segmentation.

(** ** Fences that are not terminated, fences that touch *)

Section Fences.

(** C5 (as stated, refuted) -- The input is an opening marker, a line,
    and a second opening marker that nothing closes. No closing fence
    occurs from the second marker on, yet the newline before it and its
    three backticks close the first marker: the trailing prose segment
    starts after those backticks and does not hold the second marker. *)
Lemma unterminated_fence_counterexample :
  let pre := fence_open ++ lit "A" ++ [LF] in
  let rest := lit "B" in
  find fence_close (fence_open ++ rest) = None /\
  Re.split mermaid_pattern (pre ++ fence_open ++ rest)
  = [[]; lit "A"; lit "mermaid" ++ [LF] ++ lit "B"] /\
  ~ (exists p, last (Re.split mermaid_pattern (pre ++ fence_open ++ rest)) []
               = p ++ fence_open ++ rest).
Proof.
  cbv zeta. split; [reflexivity|]. split; [reflexivity|].
  intros [p H].
  assert (L : length (p ++ fence_open ++ lit "B") = 9) by now rewrite <- H.
  rewrite !length_app in L. cbn in L. lia.
Qed.

Lemma fence_open_backticks (rest : str) :
  fence_open ++ rest = lit "```" ++ lit "mermaid" ++ [LF] ++ rest.
Proof. reflexivity. Qed.

(** With no closing fence from the marker on, the marker stays prose when
    its backticks close nothing. *)
Lemma next_fence_marker_free (t rest : str) :
  find fence_close (fence_open ++ rest) = None ->
  next_fence (t ++ lit "```") = None ->
  next_fence (t ++ fence_open ++ rest) = None.
Proof.
  intros H1 H2.
  destruct (next_fence (t ++ fence_open ++ rest)) as [[[b g] r]|] eqn:E;
    [exfalso|reflexivity].
  apply next_fence_sound in E.
  destruct (le_lt_dec (length (b ++ fence_open ++ g ++ fence_close))
                      (length (t ++ lit "```"))) as [Hle|Hlt].
  - assert (E' : (t ++ lit "```") ++ lit "mermaid" ++ [LF] ++ rest
                 = (b ++ fence_open ++ g ++ fence_close) ++ r).
    { rewrite <- !app_assoc. rewrite <- fence_open_backticks.
      now rewrite E. }
    destruct (app_eq_app_le _ _ _ _ E' Hle) as (w & Hw & _).
    apply (next_fence_complete b g w). rewrite <- H2. f_equal.
    rewrite Hw. now rewrite <- !app_assoc.
  - assert (E' : (b ++ fence_open ++ g) ++ fence_close ++ r
                 = t ++ fence_open ++ rest).
    { rewrite E. now rewrite <- !app_assoc. }
    destruct (app_eq_app_le _ _ _ _ E') as (w & _ & Hw).
    { rewrite !length_app in *. cbn [length] in *.
      change (length (lit "```")) with 3 in Hlt.
      change (length fence_close) with 4 in Hlt. lia. }
    apply (find_none_no_occurrence _ _ w r H1). exact Hw.
Qed.

(** C5 (amended) -- For every input text [pre ++ marker ++ rest] where no
    closing fence occurs in [rest] and where no earlier opening marker is
    left open (the text after the last fence pair matched in [pre] holds
    no opening marker), the unterminated fence is not matched: the split
    is the split of [pre] with the marker and all of [rest] appended to
    its trailing prose segment. More precisely, when no closing fence
    occurs from the marker on, the marker and [rest] are appended to the
    trailing prose segment exactly when the three backticks of the marker
    do not close an earlier opening marker. *)
Theorem unterminated_fence_is_trailing_prose :
  (forall pre rest,
     find fence_close rest = None ->
     find fence_open (last (Re.split mermaid_pattern pre) []) = None ->
     Re.split mermaid_pattern (pre ++ fence_open ++ rest)
     = removelast (Re.split mermaid_pattern pre)
       ++ [last (Re.split mermaid_pattern pre) [] ++ fence_open ++ rest] /\
     last (Re.split mermaid_pattern (pre ++ fence_open ++ rest)) []
     = last (Re.split mermaid_pattern pre) [] ++ fence_open ++ rest /\
     length (Re.split mermaid_pattern (pre ++ fence_open ++ rest))
     = length (Re.split mermaid_pattern pre)) /\
  (forall pre rest,
     find fence_close (fence_open ++ rest) = None ->
     (next_fence (last (Re.split mermaid_pattern pre) [] ++ lit "```") = None
      <->
      Re.split mermaid_pattern (pre ++ fence_open ++ rest)
      = removelast (Re.split mermaid_pattern pre)
        ++ [last (Re.split mermaid_pattern pre) [] ++ fence_open ++ rest])).
Proof.
  split.
  - intros pre rest Hrest Hpre.
    assert (E : Re.split mermaid_pattern (pre ++ fence_open ++ rest)
                = removelast (Re.split mermaid_pattern pre)
                  ++ [last (Re.split mermaid_pattern pre) []
                      ++ fence_open ++ rest]).
    { rewrite split_app. f_equal. rewrite split_unfold.
      now rewrite (next_fence_unterminated _ _ Hpre Hrest). }
    rewrite E. split; [reflexivity|]. split.
    + apply last_last.
    + rewrite length_app. cbn [length].
      rewrite (app_removelast_last [] (split_not_nil pre)) at 2.
      rewrite length_app. reflexivity.
  - intros pre rest H1. rewrite split_app.
    set (t := last (Re.split mermaid_pattern pre) []).
    split.
    + intros H2. f_equal. rewrite split_unfold.
      now rewrite (next_fence_marker_free _ _ H1 H2).
    + intros H. apply app_inv_head in H.
      destruct (next_fence (t ++ lit "```")) as [[[b g] r]|] eqn:E;
        [exfalso|reflexivity].
      apply (next_fence_app _ _ _ _ (lit "mermaid" ++ [LF] ++ rest)) in E.
      rewrite <- app_assoc, <- fence_open_backticks in E.
      rewrite split_unfold, E in H. discriminate.
Qed.

(** The amended property on a text with one fence pair and then an
    opening marker on a line of its own that nothing closes. *)
Lemma unterminated_fence_is_trailing_prose_witness :
  let pre := lit "Intro" ++ [LF] ++ fence_open ++ lit "A-->B" ++ fence_close
             ++ [LF] ++ lit "More" ++ [LF] in
  let rest := lit "C-->D" in
  Re.split mermaid_pattern (pre ++ fence_open ++ rest)
  = [lit "Intro" ++ [LF]; lit "A-->B";
     [LF] ++ lit "More" ++ [LF] ++ fence_open ++ lit "C-->D"].
Proof.
  cbv zeta.
  refine (eq_trans (proj1 (proj1 unterminated_fence_is_trailing_prose
                             (lit "Intro" ++ [LF] ++ fence_open ++ lit "A-->B"
                              ++ fence_close ++ [LF] ++ lit "More" ++ [LF])
                             (lit "C-->D") _ _)) _);
    reflexivity.
Defined.

(** C6 (as stated, refuted) -- The input holds two fences that touch,
    each with an interior free of closing fences, after an opening marker
    left open. The newline before the first fence and its three backticks
    close that marker, the first fence becomes prose, and no empty prose
    segment stands between two diagram segments. *)
Lemma adjacent_fences_counterexample :
  let pre := fence_open ++ lit "X" ++ [LF] in
  let d1 := lit "D1" in
  let d2 := lit "D2" in
  let s := pre ++ fence_open ++ d1 ++ fence_close
           ++ fence_open ++ d2 ++ fence_close in
  find fence_close d1 = None /\ find fence_close d2 = None /\
  Re.split mermaid_pattern s
  = [[]; lit "X"; lit "mermaid" ++ [LF] ++ lit "D1" ++ [LF] ++ lit "```";
     lit "D2"; []] /\
  ~ (exists k a b,
       nth_error (Re.split mermaid_pattern s) (2 * k + 1) = Some a /\
       nth_error (Re.split mermaid_pattern s) (2 * k + 2) = Some [] /\
       nth_error (Re.split mermaid_pattern s) (2 * k + 3) = Some b).
Proof.
  cbv zeta. split; [reflexivity|]. split; [reflexivity|].
  split; [reflexivity|].
  intros (k & a & b & _ & H2 & H3).
  match type of H3 with nth_error ?l _ = _ => set (parts := l) in * end.
  assert (Hlen : length parts = 5) by reflexivity.
  assert (Hk : 2 * k + 3 < length parts).
  { apply nth_error_Some. rewrite H3. discriminate. }
  assert (k = 0) as -> by lia.
  vm_compute in H2. discriminate.
Qed.

(** The empty text between two matches that touch is a part of the
    split. *)
Lemma touching_matches (s : str) (k : nat) (m1 m2 : Re.Match) :
  nth_error (Re.finditer mermaid_pattern s) k = Some m1 ->
  nth_error (Re.finditer mermaid_pattern s) (S k) = Some m2 ->
  Re.m_end m1 = Re.m_start m2 ->
  exists d1 d2,
    Re.m_groups m1 = [d1] /\ Re.m_groups m2 = [d2] /\
    nth_error (Re.split mermaid_pattern s) (2 * k + 1) = Some d1 /\
    nth_error (Re.split mermaid_pattern s) (2 * k + 2) = Some [] /\
    nth_error (Re.split mermaid_pattern s) (2 * k + 3) = Some d2.
Proof.
  rewrite finditer_is_scan. intros H1 H2 Hadj.
  destruct (split_tiles s []) as (_ & Hprose & Hfound).
  cbn [app length] in Hprose, Hfound.
  destruct (Hfound k m1 H1) as (d1 & G1 & _ & N1).
  destruct (Hfound (S k) m2 H2) as (d2 & G2 & _ & N2).
  exists d1, d2. repeat split; try assumption.
  - replace (2 * k + 2) with (2 * S k) by lia.
    rewrite Hprose.
    + unfold prose_start, prose_end. rewrite H1, H2, Hadj.
      unfold substr. now rewrite Nat.sub_diag.
    + apply Nat.lt_le_incl. apply nth_error_Some. rewrite H2. discriminate.
  - replace (2 * k + 3) with (2 * S k + 1) by lia. exact N2.
Qed.

(** C6 (amended) -- For every input text, whenever the pattern matches
    two fence pairs of which the second starts where the first ends, the
    split holds the empty string between their two diagram parts. This is
    the case for every input text [pre ++ F1 ++ F2 ++ post] where [F1] and
    [F2] are fences around [d1] and [d2], no closing fence occurs in [d1]
    or [d2], nothing stands between [F1] and [F2], and no earlier opening
    marker is left open (the text after the last fence pair matched in
    [pre] holds no opening marker): the split is then the split of [pre],
    then [d1], the empty string and [d2], then the split of [post]. *)
Theorem adjacent_fences_empty_prose :
  (forall s k m1 m2,
     nth_error (Re.finditer mermaid_pattern s) k = Some m1 ->
     nth_error (Re.finditer mermaid_pattern s) (S k) = Some m2 ->
     Re.m_end m1 = Re.m_start m2 ->
     exists d1 d2,
       Re.m_groups m1 = [d1] /\ Re.m_groups m2 = [d2] /\
       nth_error (segments s) (2 * k + 1) = Some (Diagram d1) /\
       nth_error (segments s) (2 * k + 2) = Some (Prose []) /\
       nth_error (segments s) (2 * k + 3) = Some (Diagram d2)) /\
  (forall pre d1 d2 post,
     find fence_close d1 = None ->
     find fence_close d2 = None ->
     find fence_open (last (Re.split mermaid_pattern pre) []) = None ->
     Re.split mermaid_pattern
       (pre ++ (fence_open ++ d1 ++ fence_close)
            ++ (fence_open ++ d2 ++ fence_close) ++ post)
     = removelast (Re.split mermaid_pattern pre)
       ++ [last (Re.split mermaid_pattern pre) []; d1; []; d2]
       ++ Re.split mermaid_pattern post).
Proof.
  split.
  - intros s k m1 m2 H1 H2 Hadj.
    destruct (touching_matches s k m1 m2 H1 H2 Hadj)
      as (d1 & d2 & G1 & G2 & N1 & N0 & N2).
    exists d1, d2. unfold segments.
    rewrite !segments_of_nth, N1, N0, N2. cbn [option_map].
    replace (2 * k + 2) with (2 * S k) by lia.
    replace (2 * k + 3) with (2 * S k + 1) by lia.
    now rewrite !segment_of_odd, segment_of_even.
  - intros pre d1 d2 post H1 H2 Hpre.
    rewrite split_app. f_equal.
    rewrite <- !app_assoc.
    rewrite split_unfold, (next_fence_exact _ _ _ Hpre H1).
    cbn [app]. do 2 f_equal.
    rewrite split_unfold.
    change (fence_open ++ d2 ++ fence_close ++ post)
      with ([] ++ fence_open ++ d2 ++ fence_close ++ post).
    rewrite (next_fence_exact [] d2 post eq_refl H2).
    reflexivity.
Qed.

(** The amended property on a text with two fences that touch. *)
Lemma adjacent_fences_empty_prose_witness :
  let pre := lit "Intro" ++ [LF] in
  let post := [LF] ++ lit "Outro" in
  Re.split mermaid_pattern
    (pre ++ (fence_open ++ lit "A-->B" ++ fence_close)
         ++ (fence_open ++ lit "C-->D" ++ fence_close) ++ post)
  = [lit "Intro" ++ [LF]; lit "A-->B"; []; lit "C-->D"; [LF] ++ lit "Outro"].
Proof.
  cbv zeta.
  refine (eq_trans (proj2 adjacent_fences_empty_prose
                      (lit "Intro" ++ [LF]) (lit "A-->B") (lit "C-->D")
                      ([LF] ++ lit "Outro") _ _ _) _);
    reflexivity.
Defined.

End Fences.

(** ** Counting the occurrences of a tag in a document *)

Section Occurrences.

Lemma occurrences_nil (l : str) : l <> [] -> occurrences l [] = 0.
Proof. intros H. destruct l; [contradiction|reflexivity]. Qed.

(** The occurrences in a text of two parts are those of the parts, when
    no occurrence starts in the first part and ends in the second. *)
Lemma occurrences_app (l x y : str) :
  l <> [] ->
  (forall x1 x2, x = x1 ++ x2 -> x2 <> [] ->
     strip_prefix l x2 = None -> strip_prefix l (x2 ++ y) = None) ->
  occurrences l (x ++ y) = occurrences l x + occurrences l y.
Proof.
  intros Hl. induction x as [|c x IH]; intros H.
  - cbn [app]. now rewrite (occurrences_nil l Hl).
  - change ((c :: x) ++ y) with (c :: (x ++ y)).
    cbn [occurrences].
    rewrite IH by (intros x1 x2 E; apply (H (c :: x1) x2); now rewrite E).
    destruct (strip_prefix l (c :: x)) as [t|] eqn:P.
    + pose proof (strip_prefix_app_r _ _ _ y P) as P'.
      change ((c :: x) ++ y) with (c :: (x ++ y)) in P'.
      rewrite P'. lia.
    + pose proof (H [] (c :: x) eq_refl ltac:(discriminate) P) as P'.
      change ((c :: x) ++ y) with (c :: (x ++ y)) in P'.
      rewrite P'. lia.
Qed.

(** A start of [l] that the text before [y] ends with: [l] is that end
    and more. *)
Lemma straddle_parts (l x2 y t : str) :
  x2 ++ y = l ++ t -> length x2 < length l ->
  exists c w, l = x2 ++ c :: w /\ y = (c :: w) ++ t.
Proof.
  intros E Hlt. symmetry in E.
  destruct (app_eq_app_le l t x2 y E) as (w & El & Ey); [lia|].
  destruct w as [|c w].
  - rewrite app_nil_r in El. subst l. lia.
  - now exists c, w.
Qed.

Lemma occurrences_app_closed (l x y : str) :
  l <> [] -> closed_end l x = true ->
  occurrences l (x ++ y) = occurrences l x + occurrences l y.
Proof.
  intros Hl C. apply occurrences_app; [assumption|].
  intros x1 x2 E Hne P.
  destruct (le_lt_dec (length l) (length x2)) as [Hle|Hlt];
    [now apply strip_prefix_none_app|].
  destruct (strip_prefix l (x2 ++ y)) as [t|] eqn:Q; [exfalso|reflexivity].
  apply strip_prefix_sound in Q.
  destruct (straddle_parts l x2 y t Q Hlt) as (c & w & El & _).
  unfold closed_end in C. rewrite forallb_forall in C.
  specialize (C (length x1)).
  assert (Hin : In (length x1) (seq 0 (length x))).
  { apply in_seq. rewrite E, length_app.
    destruct x2; [contradiction|cbn [length]; lia]. }
  specialize (C Hin). cbv zeta in C.
  assert (Hs : skipn (length x1) x = x2).
  { rewrite E, skipn_app, skipn_all, Nat.sub_diag. reflexivity. }
  rewrite Hs in C.
  apply orb_true_iff in C as [C|C].
  - apply Nat.leb_le in C. lia.
  - rewrite El in C. rewrite strip_prefix_app in C. discriminate.
Qed.

Lemma occurrences_app_open (l x y : str) :
  l <> [] -> open_start l y = true ->
  occurrences l (x ++ y) = occurrences l x + occurrences l y.
Proof.
  intros Hl O. apply occurrences_app; [assumption|].
  intros x1 x2 E Hne P.
  destruct (le_lt_dec (length l) (length x2)) as [Hle|Hlt];
    [now apply strip_prefix_none_app|].
  destruct (strip_prefix l (x2 ++ y)) as [t|] eqn:Q; [exfalso|reflexivity].
  apply strip_prefix_sound in Q.
  destruct (straddle_parts l x2 y t Q Hlt) as (c & w & El & Ey).
  subst y. cbn [app open_start] in O. rewrite forallb_forall in O.
  destruct x2 as [|a x2]; [contradiction|].
  assert (Hin : In c (tl l)).
  { rewrite El. cbn [app tl]. apply in_or_app. right. now left. }
  specialize (O c Hin). now rewrite N.eqb_refl in O.
Qed.

Lemma list_sum_cons (n : nat) (l : list nat) :
  list_sum (n :: l) = n + list_sum l.
Proof. reflexivity. Qed.

Lemma list_sum_zero (l : list nat) :
  list_sum l = 0 <-> Forall (fun n => n = 0) l.
Proof.
  induction l as [|n l IH]; [|rewrite list_sum_cons].
  - split; [constructor|reflexivity].
  - split.
    + intros H. constructor; [lia|]. apply IH. lia.
    + intros H. inversion H as [|? ? Hn Hl]; subst. apply IH in Hl. lia.
Qed.

(** *** The opening tag of a container in the parts of a document *)

Lemma mermaid_div_open_not_nil : mermaid_div_open <> [].
Proof. discriminate. Qed.

(** A container holds its own tag, and the tags of its text. *)
Lemma occurrences_container (code rest : str) :
  occurrences mermaid_div_open
    (mermaid_div_open ++ [LF] ++ code ++ [LF] ++ lit "</div>" ++ rest)
  = 1 + occurrences mermaid_div_open code
    + occurrences mermaid_div_open rest.
Proof.
  rewrite (occurrences_app_open mermaid_div_open mermaid_div_open
             ([LF] ++ code ++ [LF] ++ lit "</div>" ++ rest)
             mermaid_div_open_not_nil eq_refl).
  rewrite (occurrences_app_closed mermaid_div_open [LF]
             (code ++ [LF] ++ lit "</div>" ++ rest)
             mermaid_div_open_not_nil eq_refl).
  rewrite (occurrences_app_open mermaid_div_open code
             ([LF] ++ lit "</div>" ++ rest)
             mermaid_div_open_not_nil eq_refl).
  rewrite (app_assoc [LF] (lit "</div>") rest).
  rewrite (occurrences_app_closed mermaid_div_open ([LF] ++ lit "</div>")
             rest mermaid_div_open_not_nil eq_refl).
  change (occurrences mermaid_div_open mermaid_div_open) with 1.
  change (occurrences mermaid_div_open [LF]) with 0.
  change (occurrences mermaid_div_open ([LF] ++ lit "</div>")) with 0.
  lia.
Qed.

(** The body of a document holds one tag for each container, and the
    tags of its markup and of its diagram texts. *)
Lemma occurrences_document_body (codes : list str) :
  forall bodies,
    length bodies = S (length codes) ->
    occurrences mermaid_div_open (document_body bodies codes ++ html_tail)
    = length codes
      + list_sum (map (occurrences mermaid_div_open) bodies)
      + list_sum (map (occurrences mermaid_div_open) codes).
Proof.
  induction codes as [|code codes IH]; intros bodies Hlen.
  - destruct bodies as [|html [|? ?]]; try discriminate.
    cbn [document_body map length]. rewrite list_sum_cons.
    change (list_sum []) with 0.
    rewrite (occurrences_app_open mermaid_div_open html html_tail
               mermaid_div_open_not_nil eq_refl).
    change (occurrences mermaid_div_open html_tail) with 0. lia.
  - destruct bodies as [|html bodies]; [discriminate|].
    cbn [length] in Hlen. injection Hlen as Hlen.
    cbn [document_body map length]. rewrite !list_sum_cons.
    rewrite <- !app_assoc.
    rewrite (occurrences_app_open mermaid_div_open html
               (mermaid_div_open ++ [LF] ++ code ++ [LF] ++ lit "</div>"
                ++ document_body bodies codes ++ html_tail)
               mermaid_div_open_not_nil eq_refl).
    rewrite occurrences_container, (IH bodies Hlen). lia.
Qed.

(** The head of a document holds the tags of the display name, twice. *)
Lemma occurrences_html_head (file_name rest : str) :
  occurrences mermaid_div_open (html_head file_name ++ rest)
  = 2 * occurrences mermaid_div_open file_name
    + occurrences mermaid_div_open rest.
Proof.
  set (a := firstn 196 (html_head [])).
  set (b := firstn 879 (skipn 196 (html_head []))).
  set (c := skipn 1075 (html_head [])).
  change (html_head file_name)
    with (a ++ file_name ++ b ++ file_name ++ c).
  rewrite <- !app_assoc.
  rewrite (occurrences_app_closed mermaid_div_open a _
             mermaid_div_open_not_nil eq_refl).
  rewrite (occurrences_app_open mermaid_div_open file_name
             (b ++ file_name ++ c ++ rest)
             mermaid_div_open_not_nil eq_refl).
  rewrite (occurrences_app_closed mermaid_div_open b _
             mermaid_div_open_not_nil eq_refl).
  rewrite (occurrences_app_open mermaid_div_open file_name (c ++ rest)
             mermaid_div_open_not_nil eq_refl).
  rewrite (occurrences_app_closed mermaid_div_open c rest
             mermaid_div_open_not_nil eq_refl).
  change (occurrences mermaid_div_open a) with 0.
  change (occurrences mermaid_div_open b) with 0.
  change (occurrences mermaid_div_open c) with 0.
  lia.
Qed.

End Occurrences.

(** ** The two consumers of the segments *)

Section Consumers.

Variable Exn : Type.
Variable exn_str : Exn -> str.
Variable md_render : str -> Exn + str.
Variable st_mermaid : str -> option Exn.
Variable splitext_root : str -> str.

Lemma append_parts_export (l : list str) :
  forall (acc : list str) (i : nat),
    append_parts md_render acc (enumerate_from i l) =
    match export_all md_render
            (map (fun ip => segment_of (fst ip) (snd ip)) (enumerate_from i l))
    with
    | inl e => inl e
    | inr body => inr (acc ++ body)
    end.
Proof.
  induction l as [|x l IH]; intros acc i.
  - cbn. now rewrite app_nil_r.
  - cbn [enumerate_from map append_parts export_all fst snd].
    unfold segment_of at 1.
    destruct (i mod 2 =? 0); cbn [export_segment].
    + destruct (md_render x) as [e|html]; [reflexivity|].
      rewrite IH.
      destruct (export_all md_render _) as [e|body]; [reflexivity|].
      now rewrite <- app_assoc.
    + rewrite IH.
      destruct (export_all md_render _) as [e|body]; [reflexivity|].
      now rewrite <- app_assoc.
Qed.

(** The exported parts: the head, one part per segment, the tail. *)
Lemma html_parts_segments (raw file_name : str) :
  html_parts md_render raw file_name =
  match export_all md_render (segments raw) with
  | inl e => inl e
  | inr body => inr (html_head file_name :: body ++ [html_tail])
  end.
Proof.
  unfold html_parts. cbv zeta.
  change (map Re.Literal (lit "```mermaid" ++ [LF]) ++ [Re.LazyAnyGroup]
          ++ map Re.Literal ([LF] ++ lit "```")) with mermaid_pattern.
  unfold enumerate. rewrite append_parts_export.
  fold (enumerate (Re.split mermaid_pattern raw)).
  fold (segments_of (Re.split mermaid_pattern raw)).
  fold (segments raw).
  destruct (export_all md_render (segments raw)); reflexivity.
Qed.

Lemma render_part_returns (i : nat) (part : str) :
  snd (render_part exn_str st_mermaid i part) = inr tt.
Proof.
  unfold render_part, call_st_mermaid.
  destruct (i mod 2 =? 0); [reflexivity|].
  destruct (st_mermaid (strip part)); reflexivity.
Qed.

Lemma render_part_codes (i : nat) (part : str) :
  st_mermaid_codes (fst (render_part exn_str st_mermaid i part)) =
  map strip (diagram_texts [segment_of i part]).
Proof.
  unfold render_part, call_st_mermaid, segment_of.
  destruct (i mod 2 =? 0); [reflexivity|].
  destruct (st_mermaid (strip part)); reflexivity.
Qed.

(** A loop whose body never raises makes every round. *)
Lemma for_each_total (A : Type) (f : A -> M Exn unit) (l : list A) :
  (forall x, snd (f x) = inr tt) ->
  for_each l f = (flat_map (fun x => fst (f x)) l, inr tt).
Proof.
  intros Hf. induction l as [|x l IH]; [reflexivity|].
  cbn [for_each flat_map]. unfold bind.
  specialize (Hf x). destruct (f x) as [t [e|[]]]; [discriminate|].
  now rewrite IH.
Qed.

Lemma render_interactive_trace (raw : str) :
  render_interactive exn_str st_mermaid raw =
  (flat_map (fun ip => fst (render_part exn_str st_mermaid (fst ip) (snd ip)))
            (enumerate (Re.split mermaid_pattern raw)),
   inr tt).
Proof.
  unfold render_interactive. cbv zeta.
  apply for_each_total. intros [i part]. apply render_part_returns.
Qed.

Lemma st_mermaid_codes_app (t1 t2 : list ui) :
  st_mermaid_codes (t1 ++ t2) = st_mermaid_codes t1 ++ st_mermaid_codes t2.
Proof. apply flat_map_app. Qed.

Lemma diagram_texts_cons (seg : Segment) (l : list Segment) :
  diagram_texts (seg :: l) = diagram_texts [seg] ++ diagram_texts l.
Proof.
  unfold diagram_texts. cbn [flat_map]. now rewrite app_nil_r.
Qed.

(** The interactive view hands the stripped text of every diagram segment
    to the widget, in order. *)
Lemma interactive_codes (raw : str) :
  st_mermaid_codes (fst (render_interactive exn_str st_mermaid raw)) =
  map strip (diagram_texts (segments raw)).
Proof.
  rewrite render_interactive_trace. cbn [fst].
  unfold segments, segments_of, enumerate.
  generalize 0 as i.
  induction (Re.split mermaid_pattern raw) as [|x l IH]; intros i;
    [reflexivity|].
  cbn [enumerate_from flat_map map fst snd].
  rewrite (diagram_texts_cons (segment_of i x)
             (map (fun ip => segment_of (fst ip) (snd ip))
                  (enumerate_from (S i) l))), map_app.
  now rewrite st_mermaid_codes_app, render_part_codes, IH.
Qed.

Lemma render_part_bodies (i : nat) (part : str) :
  st_markdown_bodies (fst (render_part exn_str st_mermaid i part)) =
  prose_texts [segment_of i part].
Proof.
  unfold render_part, call_st_mermaid, segment_of.
  destruct (i mod 2 =? 0); [reflexivity|].
  destruct (st_mermaid (strip part)); reflexivity.
Qed.

Lemma prose_texts_cons (seg : Segment) (l : list Segment) :
  prose_texts (seg :: l) = prose_texts [seg] ++ prose_texts l.
Proof.
  unfold prose_texts. cbn [flat_map]. now rewrite app_nil_r.
Qed.

(** The interactive view hands every prose part, as it is, to
    [st.markdown], in order. *)
Lemma interactive_bodies (raw : str) :
  st_markdown_bodies (fst (render_interactive exn_str st_mermaid raw)) =
  prose_texts (segments raw).
Proof.
  rewrite render_interactive_trace. cbn [fst].
  unfold segments, segments_of, enumerate.
  generalize 0 as i.
  induction (Re.split mermaid_pattern raw) as [|x l IH]; intros i;
    [reflexivity|].
  cbn [enumerate_from flat_map map fst snd].
  rewrite (prose_texts_cons (segment_of i x)
             (map (fun ip => segment_of (fst ip) (snd ip))
                  (enumerate_from (S i) l))).
  unfold st_markdown_bodies at 1. rewrite flat_map_app.
  fold (st_markdown_bodies (fst (render_part exn_str st_mermaid i x))).
  rewrite render_part_bodies. f_equal. apply IH.
Qed.



Lemma mermaid_div_spelled (code : str) :
  mermaid_div code
  = mermaid_div_open ++ [LF] ++ code ++ [LF] ++ lit "</div>".
Proof. reflexivity. Qed.

(** The parts that the export loop appends, joined: the markup of the
    prose segments and the containers of the stripped diagram texts, in
    turn. *)
Lemma export_all_document (s : str) :
  forall body, export_all md_render (segments s) = inr body ->
    exists bodies,
      Forall2 (fun t html => md_render t = inr html)
        (prose_texts (segments s)) bodies /\
      length bodies = S (length (map strip (diagram_texts (segments s)))) /\
      join body
      = document_body bodies (map strip (diagram_texts (segments s))).
Proof.
  induction s as [s Hnone | s b g r E IH] using scan_ind; intros body;
    rewrite segments_unfold.
  - rewrite Hnone. cbn [export_all export_segment].
    destruct (md_render s) as [e|html] eqn:Hs; [discriminate|].
    intros H; inversion H; subst body.
    exists [html]. split; [|split].
    + cbn. constructor; [assumption|constructor].
    + reflexivity.
    + unfold join. cbn. apply app_nil_r.
  - rewrite E. cbn [export_all export_segment].
    destruct (md_render b) as [e|html] eqn:Hb; [discriminate|].
    destruct (export_all md_render (segments r)) as [e|body'];
      [discriminate|].
    intros H; inversion H; subst body.
    destruct (IH body' eq_refl) as (bodies & Hall & Hlen & Hjoin).
    exists (html :: bodies). split; [|split].
    + cbn [prose_texts flat_map app]. constructor; assumption.
    + cbn [diagram_texts flat_map app map length]. now rewrite Hlen.
    + cbn [diagram_texts flat_map app map document_body].
      unfold join in *. cbn [concat]. rewrite Hjoin, mermaid_div_spelled.
      now rewrite <- !app_assoc.
Qed.

(** *** Properties of the report *)

(** C3 (amended) -- Consistency between the views. For the same response
    text, when the export returns a document, the document is the head,
    then the markup of the texts that the interactive view hands to
    [st.markdown] alternating with one container (the opening tag, a
    newline, the text, a newline, the closing tag) around each text that
    the interactive view hands to the diagram widget, in the same number
    and order, then the tail; these texts are the stripped texts of the
    diagram segments of the one segmentation of the input. The opening
    tags of a container that the document holds are those of these
    containers and those that the display name (spliced twice), the
    markup of the prose and the diagram texts carry: the document holds
    as many containers as the interactive view renders diagrams exactly
    when none of these carries the tag. *)
Theorem views_consistent (raw file_name doc : str) :
  generate_html_report md_render raw file_name = inr doc ->
  let shown := fst (render_interactive exn_str st_mermaid raw) in
  let codes := st_mermaid_codes shown in
  codes = map strip (diagram_texts (segments raw)) /\
  exists bodies,
    Forall2 (fun t html => md_render t = inr html)
      (st_markdown_bodies shown) bodies /\
    length bodies = S (length codes) /\
    doc = html_head file_name ++ document_body bodies codes ++ html_tail /\
    occurrences mermaid_div_open doc
    = length codes
      + (2 * occurrences mermaid_div_open file_name
         + list_sum (map (occurrences mermaid_div_open) bodies)
         + list_sum (map (occurrences mermaid_div_open) codes)) /\
    (occurrences mermaid_div_open doc = length codes <->
     occurrences mermaid_div_open file_name = 0 /\
     Forall (fun html => occurrences mermaid_div_open html = 0) bodies /\
     Forall (fun code => occurrences mermaid_div_open code = 0) codes).
Proof.
  unfold generate_html_report. rewrite html_parts_segments. intros H.
  destruct (export_all md_render (segments raw)) as [e|body] eqn:E;
    [discriminate|].
  assert (Ed : doc = join (html_head file_name :: body ++ [html_tail]))
    by congruence.
  clear H. rewrite Ed. clear doc Ed. cbv zeta.
  rewrite interactive_codes, interactive_bodies.
  split; [reflexivity|].
  destruct (export_all_document raw body E) as (bodies & Hall & Hlen & Hjoin).
  set (codes := map strip (diagram_texts (segments raw))) in *.
  exists bodies.
  assert (Hdoc : join (html_head file_name :: body ++ [html_tail])
                 = html_head file_name ++ document_body bodies codes
                   ++ html_tail).
  { unfold join in *. cbn [concat]. rewrite concat_app, Hjoin.
    cbn [concat]. now rewrite app_nil_r. }
  assert (Hocc : occurrences mermaid_div_open
                   (join (html_head file_name :: body ++ [html_tail]))
                 = length codes
                   + (2 * occurrences mermaid_div_open file_name
                      + list_sum (map (occurrences mermaid_div_open) bodies)
                      + list_sum (map (occurrences mermaid_div_open) codes))).
  { rewrite Hdoc, occurrences_html_head,
      (occurrences_document_body codes bodies Hlen). lia. }
  split; [assumption|]. split; [assumption|]. split; [assumption|].
  split; [assumption|].
  rewrite Hocc.
  pose proof (list_sum_zero (map (occurrences mermaid_div_open) bodies))
    as Hb.
  pose proof (list_sum_zero (map (occurrences mermaid_div_open) codes))
    as Hc.
  rewrite Forall_map in Hb, Hc.
  split.
  - intros Hz. split; [lia|]. split; [apply Hb; lia|apply Hc; lia].
  - intros (Hn & HB & HC). apply Hb in HB. apply Hc in HC. lia.
Qed.

Lemma enumerate_from_nth (A : Type) (l : list A) :
  forall n i x, nth_error l i = Some x ->
                nth_error (enumerate_from n l) i = Some (n + i, x).
Proof.
  induction l as [|y l IH]; intros n [|i] x H; try discriminate.
  - inversion H. cbn. now rewrite Nat.add_0_r.
  - cbn [enumerate_from nth_error]. rewrite (IH (S n) i x H).
    now rewrite Nat.add_succ_comm.
Qed.

Lemma render_part_shows (i : nat) (part : str) :
  In (if i mod 2 =? 0 then st_markdown part
      else st_mermaid_widget (strip part) (lit "500px"))
     (fst (render_part exn_str st_mermaid i part)).
Proof.
  unfold render_part, call_st_mermaid.
  destruct (i mod 2 =? 0); [now left|].
  destruct (st_mermaid (strip part)); right; now left.
Qed.

Lemma render_part_no_download (i : nat) (part : str) :
  existsb is_download (fst (render_part exn_str st_mermaid i part)) = false.
Proof.
  unfold render_part, call_st_mermaid.
  destruct (i mod 2 =? 0); [reflexivity|].
  destruct (st_mermaid (strip part)); reflexivity.
Qed.

Lemma render_interactive_no_download (raw : str) :
  existsb is_download (fst (render_interactive exn_str st_mermaid raw))
  = false.
Proof.
  rewrite render_interactive_trace. cbn [fst].
  induction (enumerate (Re.split mermaid_pattern raw)) as [|[i part] l IH];
    [reflexivity|].
  cbn [flat_map fst snd].
  now rewrite existsb_app, render_part_no_download, IH.
Qed.

(** C8 -- Isolation of an export failure. If building the exported
    document raises an exception, the script shows the error message
    built from it and no download button, then the divider, and then
    renders the response exactly as it does otherwise: every part of the
    split is shown, a prose part as markdown and a diagram part by a call
    of the diagram widget on its stripped text. *)
Theorem export_failure_isolated (raw name : str) (e : Exn) :
  generate_html_report md_render raw name = inl e ->
  show_report exn_str md_render st_mermaid splitext_root raw name
  = (st_error (lit "Could not generate HTML report: " ++ exn_str e)
     :: st_divider
     :: fst (render_interactive exn_str st_mermaid raw), inr tt) /\
  existsb is_download
    (fst (show_report exn_str md_render st_mermaid splitext_root raw name))
  = false /\
  (forall i part,
     nth_error (Re.split mermaid_pattern raw) i = Some part ->
     In (if i mod 2 =? 0 then st_markdown part
         else st_mermaid_widget (strip part) (lit "500px"))
        (fst (render_interactive exn_str st_mermaid raw))).
Proof.
  intros H.
  assert (E : show_report exn_str md_render st_mermaid splitext_root raw name
              = (st_error (lit "Could not generate HTML report: "
                           ++ exn_str e)
                 :: st_divider
                 :: fst (render_interactive exn_str st_mermaid raw), inr tt)).
  { unfold show_report, download_section. rewrite H.
    rewrite render_interactive_trace. reflexivity. }
  split; [exact E|]. split.
  - rewrite E. cbn [fst existsb is_download orb].
    apply render_interactive_no_download.
  - intros i part Hi.
    rewrite render_interactive_trace. cbn [fst].
    apply in_flat_map. exists (i, part). split.
    + apply (nth_error_In _ i). unfold enumerate.
      now rewrite (enumerate_from_nth _ _ 0 i part Hi).
    + apply render_part_shows.
Qed.

End Consumers.

(** C10 -- The display name in the head. The head of the exported
    document is three fixed texts with the display name, as it is given,
    between them: once between the title tags and once between the tags
    of the top heading, both times after the words of the template, which
    occur nowhere else in the fixed texts. The rest of the document does
    not depend on the display name. *)
Theorem display_name_embedded_twice :
  exists a b c : str,
    (forall file_name,
       html_head file_name
       = (a ++ lit "<title>Code Analysis for ") ++ file_name
         ++ (lit "</title>" ++ b ++ lit "<h1>Code Analysis for ") ++ file_name
         ++ (lit "</h1>" ++ c)) /\
    find (lit "Code Analysis for ") a = None /\
    find (lit "Code Analysis for ") b = None /\
    find (lit "Code Analysis for ") c = None /\
    occurrences (lit "<a&b>.py") (html_head (lit "<a&b>.py")) = 2 /\
    (forall (Exn : Type) (md_render : str -> Exn + str) raw file_name doc,
       generate_html_report md_render raw file_name = inr doc ->
       exists rest,
         doc = html_head file_name ++ rest /\
         forall other,
           generate_html_report md_render raw other
           = inr (html_head other ++ rest)).
Proof.
  exists (firstn 171 (html_head [])),
         (firstn 849 (skipn 204 (html_head []))),
         (skipn 1080 (html_head [])).
  split; [intros file_name; reflexivity|].
  split; [reflexivity|]. split; [reflexivity|]. split; [reflexivity|].
  split; [reflexivity|].
  intros Exn md_render raw file_name doc.
  unfold generate_html_report. rewrite html_parts_segments.
  destruct (export_all md_render (segments raw)) as [e|body] eqn:E;
    [discriminate|].
  intros H; inversion H; subst doc.
  exists (join (body ++ [html_tail])). split; [reflexivity|].
  intros other. rewrite html_parts_segments, E. reflexivity.
Qed.

(** C4 -- The example scenario. The input of the scenario is split into
    the three parts of the specification, which are a prose, a diagram
    and a prose segment; whatever markup the renderer gives for the two
    prose parts, the export has five parts, the third being the one
    diagram container, around the text A-->B; and with the markup of a
    CommonMark renderer for the two prose parts the document holds one
    opening tag of a diagram container and that container once. *)
Theorem example_scenario :
  Re.split mermaid_pattern example_input
  = [lit "Intro text" ++ [LF]; lit "A-->B"; [LF] ++ lit "Outro text"] /\
  segments example_input
  = [Prose (lit "Intro text" ++ [LF]); Diagram (lit "A-->B");
     Prose ([LF] ++ lit "Outro text")] /\
  mermaid_div (lit "A-->B")
  = mermaid_div_open ++ [LF] ++ lit "A-->B" ++ [LF] ++ lit "</div>" /\
  (forall (Exn : Type) (md_render : str -> Exn + str) file_name h1 h2,
     md_render (lit "Intro text" ++ [LF]) = inr h1 ->
     md_render ([LF] ++ lit "Outro text") = inr h2 ->
     html_parts md_render example_input file_name
     = inr [html_head file_name; h1; mermaid_div (lit "A-->B"); h2;
            html_tail] /\
     generate_html_report md_render example_input file_name
     = inr (html_head file_name ++ h1 ++ mermaid_div (lit "A-->B") ++ h2
            ++ html_tail)) /\
  (forall (Exn : Type) (md_render : str -> Exn + str),
     md_render (lit "Intro text" ++ [LF])
     = inr (lit "<p>Intro text</p>" ++ [LF]) ->
     md_render ([LF] ++ lit "Outro text")
     = inr (lit "<p>Outro text</p>" ++ [LF]) ->
     exists doc,
       generate_html_report md_render example_input (lit "app.py") = inr doc /\
       occurrences mermaid_div_open doc = 1 /\
       occurrences (mermaid_div (lit "A-->B")) doc = 1).
Proof.
  split; [reflexivity|]. split; [reflexivity|]. split; [reflexivity|].
  assert (P : forall (Exn : Type) (md_render : str -> Exn + str)
                     file_name h1 h2,
             md_render (lit "Intro text" ++ [LF]) = inr h1 ->
             md_render ([LF] ++ lit "Outro text") = inr h2 ->
             html_parts md_render example_input file_name
             = inr [html_head file_name; h1; mermaid_div (lit "A-->B"); h2;
                    html_tail]).
  { intros Exn md_render file_name h1 h2 H1 H2.
    rewrite html_parts_segments.
    change (segments example_input)
      with [Prose (lit "Intro text" ++ [LF]); Diagram (lit "A-->B");
            Prose ([LF] ++ lit "Outro text")].
    cbn [export_all export_segment]. rewrite H1, H2. reflexivity. }
  split.
  - intros Exn md_render file_name h1 h2 H1 H2. split.
    + now apply P.
    + unfold generate_html_report. rewrite (P _ _ _ h1 h2 H1 H2).
      unfold join. cbn [concat]. now rewrite app_nil_r.
  - intros Exn md_render H1 H2.
    eexists. split.
    + unfold generate_html_report. rewrite (P _ _ _ _ _ H1 H2).
      reflexivity.
    + split; vm_compute; reflexivity.
Qed.

(** ** The properties on the example scenario *)

(** C3 (as stated, refuted) -- The response holds one fenced block whose
    text closes the container and opens another one. The interactive
    view hands one text to the diagram widget, and the exported document,
    in which that text is spliced as it is, holds two containers, one
    around A and one around B: the number of diagrams is not the same
    in the two views. *)
Lemma views_container_counterexample :
  let code :=
    lit "A" ++ [LF] ++ lit "</div>" ++ mermaid_div_open ++ [LF] ++ lit "B" in
  let raw :=
    lit "Intro text" ++ [LF] ++ fence_open ++ code ++ fence_close
    ++ [LF] ++ lit "Outro text" in
  let shown :=
    fst (render_interactive (fun e : str => e) (fun _ => None) raw) in
  segments raw
  = [Prose (lit "Intro text" ++ [LF]); Diagram code;
     Prose ([LF] ++ lit "Outro text")] /\
  st_mermaid_codes shown = [code] /\
  exists doc,
    generate_html_report paragraph_render raw (lit "app.py") = inr doc /\
    doc = html_head (lit "app.py")
          ++ (lit "<p>Intro text</p>" ++ [LF])
          ++ (mermaid_div_open ++ [LF] ++ lit "A" ++ [LF] ++ lit "</div>")
          ++ (mermaid_div_open ++ [LF] ++ lit "B" ++ [LF] ++ lit "</div>")
          ++ (lit "<p>Outro text</p>" ++ [LF])
          ++ html_tail /\
    occurrences mermaid_div_open doc = 2 /\
    occurrences mermaid_div_open doc <> length (st_mermaid_codes shown).
Proof.
  cbv zeta. split; [vm_compute; reflexivity|].
  split; [vm_compute; reflexivity|].
  eexists. split; [vm_compute; reflexivity|].
  split; [vm_compute; reflexivity|].
  split; [vm_compute; reflexivity|].
  vm_compute. discriminate.
Qed.

(** The consistency of the views on the scenario, with a renderer that
    returns: one diagram in each view, and one container tag in the
    document. *)
Lemma views_consistent_witness :
  let doc :=
    html_head (lit "app.py")
    ++ (lit "<p>Intro text</p>" ++ [LF])
    ++ (mermaid_div_open ++ [LF] ++ lit "A-->B" ++ [LF] ++ lit "</div>")
    ++ (lit "<p>Outro text</p>" ++ [LF])
    ++ html_tail in
  let shown :=
    fst (render_interactive (fun e : str => e) (fun _ => None)
           example_input) in
  let codes := st_mermaid_codes shown in
  codes = map strip (diagram_texts (segments example_input)) /\
  exists bodies,
    Forall2 (fun t html => paragraph_render t = inr html)
      (st_markdown_bodies shown) bodies /\
    length bodies = S (length codes) /\
    doc = html_head (lit "app.py") ++ document_body bodies codes
          ++ html_tail /\
    occurrences mermaid_div_open doc
    = length codes
      + (2 * occurrences mermaid_div_open (lit "app.py")
         + list_sum (map (occurrences mermaid_div_open) bodies)
         + list_sum (map (occurrences mermaid_div_open) codes)) /\
    (occurrences mermaid_div_open doc = length codes <->
     occurrences mermaid_div_open (lit "app.py") = 0 /\
     Forall (fun html => occurrences mermaid_div_open html = 0) bodies /\
     Forall (fun code => occurrences mermaid_div_open code = 0) codes).
Proof.
  exact (views_consistent str (fun e : str => e) paragraph_render
           (fun _ => None) example_input (lit "app.py") _ eq_refl).
Defined.

(** The isolation of the export failure on the scenario, with a renderer
    that raises: the whole trace of the script. *)
Lemma export_failure_isolated_witness :
  show_report (fun e : str => e) failing_render (fun _ => None) (fun n => n)
    example_input (lit "app.py")
  = ([st_error (lit "Could not generate HTML report: render failed");
      st_divider;
      st_markdown (lit "Intro text" ++ [LF]);
      st_container true;
      st_mermaid_widget (lit "A-->B") (lit "500px");
      st_expander (lit "Show Mermaid Code");
      st_code (lit "A-->B") (lit "mermaid");
      st_markdown ([LF] ++ lit "Outro text")], inr tt).
Proof.
  exact (proj1 (export_failure_isolated str (fun e : str => e) failing_render
                  (fun _ => None) (fun n => n) example_input (lit "app.py")
                  (lit "render failed") eq_refl)).
Defined.

(** The scenario with the paragraph renderer. *)
Lemma example_scenario_witness :
  exists doc,
    generate_html_report paragraph_render example_input (lit "app.py")
    = inr doc /\
    occurrences mermaid_div_open doc = 1 /\
    occurrences (mermaid_div (lit "A-->B")) doc = 1.
Proof.
  exact (proj2 (proj2 (proj2 (proj2 example_scenario)))
           str paragraph_render eq_refl eq_refl).
Defined.

(** ** Further properties of the split *)

Section SplitForm.

(** [find] gives the first occurrence. *)
Lemma find_first (l : str) :
  forall s b a u v,
    find l s = Some (b, a) -> s = u ++ l ++ v -> length b <= length u.
Proof.
  induction s as [|x s IH]; intros b a u v H E; cbn [find] in H.
  - destruct (strip_prefix l []); [|discriminate].
    inversion H. cbn. lia.
  - destruct (strip_prefix l (x :: s)) eqn:P.
    + inversion H. cbn. lia.
    + destruct (find l s) as [[b1 a1]|] eqn:F; [|discriminate].
      inversion H; subst b a.
      destruct u as [|y u].
      * cbn [app] in E. rewrite E, strip_prefix_app in P. discriminate.
      * cbn [app] in E. inversion E; subst.
        cbn [length]. apply le_n_S. now apply (IH b1 a1 u v).
Qed.

(** The text before the first occurrence holds no occurrence. *)
Lemma find_before_absent (l s b a : str) :
  l <> [] -> find l s = Some (b, a) -> find l b = None.
Proof.
  intros Hl H.
  destruct (find l b) as [[b' a']|] eqn:F; [exfalso|reflexivity].
  pose proof (find_sound _ _ _ _ H) as E.
  pose proof (find_sound _ _ _ _ F) as E'.
  rewrite E' in E. rewrite <- !app_assoc in E.
  pose proof (find_first l s b a b' (a' ++ l ++ a) H E) as Hle.
  rewrite E' in Hle. rewrite !length_app in Hle.
  destruct l; [contradiction|]. cbn [length] in Hle. lia.
Qed.

Lemma next_fence_parts_absent (s b g r : str) :
  next_fence s = Some (b, g, r) ->
  find fence_open b = None /\ find fence_close g = None.
Proof.
  unfold next_fence. intros H.
  destruct (find fence_open s) as [[b' t]|] eqn:E; [|discriminate].
  destruct (find fence_close t) as [[g' r']|] eqn:F; [|discriminate].
  inversion H; subst. split.
  - now apply (find_before_absent fence_open s b t).
  - now apply (find_before_absent fence_close t g r).
Qed.

Lemma rejoin_cons2 (p d : str) (rest : list str) :
  rest <> [] ->
  rejoin (p :: d :: rest) = p ++ fence_open ++ d ++ fence_close ++ rejoin rest.
Proof. reflexivity. Qed.

(** X1 -- The form of the split. For every input text, no diagram part of
    the split holds a closing fence, no prose part that a diagram part
    follows holds an opening marker, the last prose part holds no fence
    pair, and putting the parts back between their delimiters gives the
    input. *)
Theorem split_is_canonical (s : str) :
  canonicalb (Re.split mermaid_pattern s) = true /\
  rejoin (Re.split mermaid_pattern s) = s.
Proof.
  induction s as [s Hnone | s b g r E [IHc IHr]] using scan_ind;
    rewrite split_unfold.
  - rewrite Hnone. cbn [canonicalb rejoin]. now rewrite Hnone.
  - rewrite E.
    destruct (next_fence_parts_absent _ _ _ _ E) as [Hb Hg].
    split.
    + cbn [canonicalb]. unfold absent. now rewrite Hb, Hg, IHc.
    + cbn [rejoin]. rewrite IHr. symmetry. now apply next_fence_sound.
Qed.

(** X2 -- Splitting what was joined. For every list of parts in the form
    the split gives (no opening marker in a prose part before a diagram
    part, no closing fence in a diagram part, no fence pair in the last
    prose part), the split of the text that joins them between their
    delimiters is that list: the parts are recovered one by one. *)
Theorem split_of_rejoin (parts : list str) :
  canonicalb parts = true ->
  Re.split mermaid_pattern (rejoin parts) = parts.
Proof.
  assert (B : forall n parts, length parts <= n -> canonicalb parts = true ->
                Re.split mermaid_pattern (rejoin parts) = parts).
  { clear parts. induction n as [|n IH]; intros parts Hlen Hc.
    - destruct parts; [discriminate|cbn in Hlen; lia].
    - destruct parts as [|p [|d rest]]; [discriminate| |].
      + cbn [canonicalb rejoin] in *. rewrite split_unfold.
        now destruct (next_fence p).
      + cbn [canonicalb] in Hc. unfold absent in Hc.
        destruct (find fence_open p) eqn:Hp; [discriminate|].
        destruct (find fence_close d) eqn:Hd; [discriminate|].
        cbn [andb] in Hc. cbn [rejoin].
        rewrite split_unfold, (next_fence_exact _ _ _ Hp Hd).
        do 2 f_equal. apply IH; [cbn [length] in Hlen; lia|assumption]. }
  apply (B (length parts)). apply le_n.
Qed.

(** Three parts with newlines and backticks that form no fence. *)
Lemma split_of_rejoin_witness :
  Re.split mermaid_pattern
    (rejoin [lit "a ``` b" ++ [LF]; lit "graph LR" ++ [LF] ++ lit "  A-->B";
             [LF] ++ lit "```python" ++ [LF] ++ lit "x = 1"])
  = [lit "a ``` b" ++ [LF]; lit "graph LR" ++ [LF] ++ lit "  A-->B";
     [LF] ++ lit "```python" ++ [LF] ++ lit "x = 1"].
Proof.
  exact (split_of_rejoin
           [lit "a ``` b" ++ [LF]; lit "graph LR" ++ [LF] ++ lit "  A-->B";
            [LF] ++ lit "```python" ++ [LF] ++ lit "x = 1"] eq_refl).
Defined.

Lemma finditer_at_length (s : str) :
  forall pos,
    length (Re.split mermaid_pattern s) = 2 * length (finditer_at pos s) + 1.
Proof.
  induction s as [s Hnone | s b g r E IH] using scan_ind; intros pos;
    rewrite split_unfold, finditer_at_unfold.
  - now rewrite Hnone.
  - rewrite E. cbn [length]. rewrite (IH (pos + (length s - length r))). lia.
Qed.

(** X3 -- Appending text. When text is appended to an input, every part
    of the split but the last stays where it is, and no fence pair is
    lost: the split of the longer text has at least as many parts and
    matches. *)
Theorem split_append_stable (pre t : str) :
  (forall i, i + 1 < length (Re.split mermaid_pattern pre) ->
     nth_error (Re.split mermaid_pattern (pre ++ t)) i
     = nth_error (Re.split mermaid_pattern pre) i) /\
  length (Re.split mermaid_pattern pre)
  <= length (Re.split mermaid_pattern (pre ++ t)) /\
  length (Re.finditer mermaid_pattern pre)
  <= length (Re.finditer mermaid_pattern (pre ++ t)).
Proof.
  assert (D : exists init t0,
             Re.split mermaid_pattern pre = init ++ [t0] /\
             Re.split mermaid_pattern (pre ++ t)
             = init ++ Re.split mermaid_pattern (t0 ++ t)).
  { exists (removelast (Re.split mermaid_pattern pre)),
           (last (Re.split mermaid_pattern pre) []).
    split; [apply app_removelast_last, split_not_nil | apply split_app]. }
  destruct D as (init & t0 & Epre & Eapp).
  assert (Hne : 1 <= length (Re.split mermaid_pattern (t0 ++ t))).
  { pose proof (split_not_nil (t0 ++ t)).
    destruct (Re.split mermaid_pattern (t0 ++ t)); [contradiction|].
    cbn. lia. }
  assert (Hle : length (Re.split mermaid_pattern pre)
                <= length (Re.split mermaid_pattern (pre ++ t))).
  { rewrite Epre, Eapp, !length_app. cbn [length]. lia. }
  split; [|split; [exact Hle|]].
  - intros i Hi. rewrite Epre in Hi. rewrite length_app in Hi.
    cbn [length] in Hi.
    rewrite Epre, Eapp.
    rewrite !nth_error_app1 by lia. reflexivity.
  - rewrite !finditer_is_scan.
    pose proof (finditer_at_length pre 0).
    pose proof (finditer_at_length (pre ++ t) 0).
    lia.
Qed.

End SplitForm.

(** ** Further properties of the two consumers *)

Section ConsumersMore.

Variable Exn : Type.
Variable exn_str : Exn -> str.
Variable md_render : str -> Exn + str.
Variable st_mermaid : str -> option Exn.
Variable splitext_root : str -> str.

Lemma enumerate_around (A : Type) (l : list A) (i : nat) (x : A) :
  nth_error l i = Some x ->
  exists l1 l2, enumerate l = l1 ++ (i, x) :: l2.
Proof.
  intros H.
  pose proof (enumerate_from_nth A l 0 i x H) as E. cbn [Nat.add] in E.
  destruct (nth_error_split _ _ E) as (l1 & l2 & E' & _).
  now exists l1, l2.
Qed.

Lemma render_interactive_around (raw : str) (i : nat) (part : str) :
  nth_error (Re.split mermaid_pattern raw) i = Some part ->
  exists t1 t2,
    fst (render_interactive exn_str st_mermaid raw)
    = t1 ++ fst (render_part exn_str st_mermaid i part) ++ t2.
Proof.
  intros H. rewrite render_interactive_trace. cbn [fst].
  destruct (enumerate_around _ _ _ _ H) as (l1 & l2 & ->).
  rewrite flat_map_app. cbn [flat_map fst snd].
  eexists _, _. reflexivity.
Qed.

(** X4 -- Isolation of a diagram that fails to render. For every response
    text and whatever the diagram widget does, the rendering loop does not
    raise; every diagram part gives a container, one call of the widget on
    its stripped text, then the expander when the widget returned or the
    error message with the text of the exception when it raised, and in
    both cases the stripped text as code; every prose part is shown as
    markdown. *)
Theorem diagram_failure_isolated (raw : str) :
  snd (render_interactive exn_str st_mermaid raw) = inr tt /\
  (forall i part,
     nth_error (Re.split mermaid_pattern raw) i = Some part ->
     i mod 2 = 1 ->
     exists t1 t2,
       fst (render_interactive exn_str st_mermaid raw)
       = t1
         ++ [st_container true;
             st_mermaid_widget (strip part) (lit "500px");
             match st_mermaid (strip part) with
             | None => st_expander (lit "Show Mermaid Code")
             | Some e =>
                 st_error
                   (lit "Failed to render a Mermaid diagram. Syntax may be invalid."
                    ++ [LF] ++ lit "Error: " ++ exn_str e)
             end;
             st_code (strip part) (lit "mermaid")]
         ++ t2) /\
  (forall i part,
     nth_error (Re.split mermaid_pattern raw) i = Some part ->
     i mod 2 = 0 ->
     exists t1 t2,
       fst (render_interactive exn_str st_mermaid raw)
       = t1 ++ [st_markdown part] ++ t2).
Proof.
  split; [now rewrite render_interactive_trace|]. split.
  - intros i part H Hodd.
    destruct (render_interactive_around raw i part H) as (t1 & t2 & E).
    exists t1, t2. rewrite E. do 2 f_equal.
    unfold render_part, call_st_mermaid. rewrite Hodd.
    now destruct (st_mermaid (strip part)).
  - intros i part H Heven.
    destruct (render_interactive_around raw i part H) as (t1 & t2 & E).
    exists t1, t2. rewrite E. do 2 f_equal.
    unfold render_part. now rewrite Heven.
Qed.

(** X5 -- The page of a report. For every response text and file name the
    script from the download button on does not raise and shows, in this
    order: the download button with the exported document, the name
    [root ++ "_analysis.html"] and the type text/html when the export
    returned, or else the message of the export error; the divider; the
    interactive rendering, which is the same in both cases. *)
Theorem show_report_page (raw name : str) :
  show_report exn_str md_render st_mermaid splitext_root raw name
  = (match generate_html_report md_render raw name with
     | inr doc =>
         st_download_button ([128229%N] ++ lit " Download Full HTML Report")
           doc (splitext_root name ++ lit "_analysis.html") (lit "text/html")
     | inl e =>
         st_error (lit "Could not generate HTML report: " ++ exn_str e)
     end
     :: st_divider
     :: fst (render_interactive exn_str st_mermaid raw), inr tt).
Proof.
  unfold show_report, download_section.
  rewrite render_interactive_trace.
  destruct (generate_html_report md_render raw name); reflexivity.
Qed.

Lemma generate_fails_as_export_all (raw name : str) (e : Exn) :
  generate_html_report md_render raw name = inl e <->
  export_all md_render (segments raw) = inl e.
Proof.
  unfold generate_html_report. rewrite html_parts_segments.
  destruct (export_all md_render (segments raw)); split;
    intros H; inversion H; reflexivity.
Qed.

Lemma export_all_first_failure (s : str) (e : Exn) :
  export_all md_render (segments s) = inl e <->
  exists k prose,
    nth_error (Re.split mermaid_pattern s) (2 * k) = Some prose /\
    md_render prose = inl e /\
    forall j p, j < k ->
      nth_error (Re.split mermaid_pattern s) (2 * j) = Some p ->
      exists html, md_render p = inr html.
Proof.
  induction s as [s Hnone | s b g r E IH] using scan_ind;
    rewrite segments_unfold, split_unfold.
  - rewrite Hnone. cbn [export_all export_segment]. split.
    + intros H. exists 0, s. split; [reflexivity|]. split.
      * destruct (md_render s); [now inversion H|discriminate].
      * intros j p Hj. lia.
    + intros (k & prose & Hk & Hr & _).
      destruct k as [|k].
      * cbn in Hk. inversion Hk; subst. now rewrite Hr.
      * replace (2 * S k) with (S (S (2 * k))) in Hk by lia.
        cbn in Hk. destruct (2 * k); discriminate.
  - rewrite E. cbn [export_all export_segment].
    destruct (md_render b) as [eb|hb] eqn:Hb.
    + split.
      * intros H. inversion H; subst eb. exists 0, b.
        split; [reflexivity|]. split; [assumption|]. intros j p Hj. lia.
      * intros (k & prose & Hk & Hr & Hbefore).
        destruct k as [|k].
        -- cbn in Hk. inversion Hk; subst. congruence.
        -- destruct (Hbefore 0 b) as [html Hh]; [lia|reflexivity|].
           congruence.
    + destruct (export_all md_render (segments r)) as [er|body] eqn:Hr.
      * split.
        -- intros H. inversion H; subst er.
           destruct (proj1 IH eq_refl) as (k & prose & Hk & Hp & Hbefore).
           exists (S k), prose.
           replace (2 * S k) with (S (S (2 * k))) by lia.
           split; [exact Hk|]. split; [assumption|].
           intros [|j] p Hj Hn.
           ++ cbn in Hn. inversion Hn; subst. now exists hb.
           ++ replace (2 * S j) with (S (S (2 * j))) in Hn by lia.
              apply (Hbefore j p); [lia|exact Hn].
        -- intros (k & prose & Hk & Hp & Hbefore).
           destruct k as [|k].
           ++ cbn in Hk. inversion Hk; subst. congruence.
           ++ f_equal.
              assert (X : inl er = (inl e : Exn + list str));
                [|now inversion X].
              apply IH. exists k, prose.
              replace (2 * S k) with (S (S (2 * k))) in Hk by lia.
              split; [exact Hk|]. split; [assumption|].
              intros j p Hj Hn. apply (Hbefore (S j) p); [lia|].
              replace (2 * S j) with (S (S (2 * j))) by lia. exact Hn.
      * split; [discriminate|].
        intros (k & prose & Hk & Hp & Hbefore).
        destruct k as [|k].
        -- cbn in Hk. inversion Hk; subst. congruence.
        -- exfalso.
           assert (X : (inr body : Exn + list str) = inl e);
             [|discriminate].
           apply IH. exists k, prose.
           replace (2 * S k) with (S (S (2 * k))) in Hk by lia.
           split; [exact Hk|]. split; [assumption|].
           intros j p Hj Hn. apply (Hbefore (S j) p); [lia|].
           replace (2 * S j) with (S (S (2 * j))) by lia. exact Hn.
Qed.

(** X6 -- When the export fails. Building the exported document raises
    [e] exactly when the markdown renderer raises [e] on some prose part
    (a part at an even index) and returns on every prose part before it:
    the exception is that of the first prose part that fails, and a
    diagram part never makes the export fail. In particular the export
    returns a document whenever the renderer returns on every text. *)
Theorem export_fails_on_first_prose (raw name : str) :
  (forall e,
     generate_html_report md_render raw name = inl e <->
     exists k prose,
       nth_error (Re.split mermaid_pattern raw) (2 * k) = Some prose /\
       md_render prose = inl e /\
       forall j p, j < k ->
         nth_error (Re.split mermaid_pattern raw) (2 * j) = Some p ->
         exists html, md_render p = inr html) /\
  ((forall t, exists html, md_render t = inr html) ->
   exists doc, generate_html_report md_render raw name = inr doc).
Proof.
  split.
  - intros e. rewrite generate_fails_as_export_all.
    apply export_all_first_failure.
  - intros Hall.
    destruct (generate_html_report md_render raw name) as [e|doc] eqn:G;
      [exfalso|now exists doc].
    apply generate_fails_as_export_all, export_all_first_failure in G.
    destruct G as (k & prose & _ & Hr & _).
    destruct (Hall prose) as [html Hh]. congruence.
Qed.

Lemma export_all_prose (s : str) :
  forall body, export_all md_render (segments s) = inr body ->
    Forall2 (fun t html => md_render t = inr html)
            (prose_texts (segments s)) (even_elements body).
Proof.
  induction s as [s Hnone | s b g r E IH] using scan_ind; intros body;
    rewrite segments_unfold.
  - rewrite Hnone. cbn [export_all export_segment].
    destruct (md_render s) as [e|html] eqn:Hs; [discriminate|].
    intros H; inversion H; subst body.
    cbn. constructor; [assumption|constructor].
  - rewrite E. cbn [export_all export_segment].
    destruct (md_render b) as [e|html] eqn:Hb; [discriminate|].
    destruct (export_all md_render (segments r)) as [e|body'];
      [discriminate|].
    intros H; inversion H; subst body.
    cbn [prose_texts flat_map app even_elements].
    constructor; [assumption|]. now apply IH.
Qed.

(** X7 -- The same prose in both views. For the same response text, when
    the export produces its parts, the parts at the even places of the
    body are the markup that the renderer gives for exactly the texts
    that the interactive view hands to [st.markdown], in the same number
    and order; these texts are the prose parts of the split, not
    stripped. *)
Theorem prose_consistent (raw file_name : str) (parts : list str) :
  html_parts md_render raw file_name = inr parts ->
  exists body,
    parts = html_head file_name :: body ++ [html_tail] /\
    Forall2 (fun t html => md_render t = inr html)
      (st_markdown_bodies (fst (render_interactive exn_str st_mermaid raw)))
      (even_elements body) /\
    st_markdown_bodies (fst (render_interactive exn_str st_mermaid raw))
    = prose_texts (segments raw).
Proof.
  rewrite html_parts_segments. intros H.
  destruct (export_all md_render (segments raw)) as [e|body] eqn:E;
    [discriminate|].
  inversion H; subst parts. exists body.
  rewrite interactive_bodies.
  split; [reflexivity|]. split; [|reflexivity].
  now apply export_all_prose.
Qed.

(** X8 -- A response without diagram. For every response text in which no
    opening marker is followed by a closing fence (the empty text is
    one), the interactive view is one call of [st.markdown] on the whole
    text, and the export is the head, the markup of the whole text and
    the tail, or the exception of the renderer on the whole text. *)
Theorem no_fence_views (raw name : str) :
  (forall u d v, raw <> u ++ fence_open ++ d ++ fence_close ++ v) ->
  fst (render_interactive exn_str st_mermaid raw) = [st_markdown raw] /\
  generate_html_report md_render raw name
  = match md_render raw with
    | inl e => inl e
    | inr html => inr (html_head name ++ html ++ html_tail)
    end.
Proof.
  intros H.
  assert (E : next_fence raw = None).
  { destruct (next_fence raw) as [[[b g] r]|] eqn:E; [|reflexivity].
    exfalso. apply (H b g r). now apply next_fence_sound. }
  split.
  - rewrite render_interactive_trace, split_unfold, E. reflexivity.
  - unfold generate_html_report.
    rewrite html_parts_segments, segments_unfold, E.
    cbn [export_all export_segment].
    destruct (md_render raw); [reflexivity|].
    unfold join. cbn [app concat]. now rewrite app_nil_r.
Qed.

End ConsumersMore.

(** The same prose in both views, on the scenario. *)
Lemma prose_consistent_witness :
  exists body,
    [html_head (lit "app.py"); lit "<p>Intro text</p>" ++ [LF];
     mermaid_div (lit "A-->B"); lit "<p>Outro text</p>" ++ [LF]; html_tail]
    = html_head (lit "app.py") :: body ++ [html_tail] /\
    Forall2 (fun t html => paragraph_render t = inr html)
      (st_markdown_bodies
         (fst (render_interactive (fun e : str => e) (fun _ => None)
                 example_input)))
      (even_elements body) /\
    st_markdown_bodies
      (fst (render_interactive (fun e : str => e) (fun _ => None)
              example_input))
    = prose_texts (segments example_input).
Proof.
  exact (prose_consistent str (fun e : str => e) paragraph_render
           (fun _ => None) example_input (lit "app.py") _ eq_refl).
Defined.

(** A response of two lines of prose with an opening marker that nothing
    closes: one call of [st.markdown] on the whole text, and a document
    with the one paragraph that a CommonMark renderer makes of it. *)
Lemma no_fence_views_witness :
  let raw :=
    lit "Diagram to follow: ```mermaid" ++ [LF] ++ lit "graph LR" in
  fst (render_interactive (fun e : str => e) (fun _ => None) raw)
  = [st_markdown raw] /\
  generate_html_report paragraph_render raw (lit "app.py")
  = inr (html_head (lit "app.py")
         ++ (lit "<p>Diagram to follow: ```mermaid" ++ [LF]
             ++ lit "graph LR</p>" ++ [LF])
         ++ html_tail).
Proof.
  cbv zeta.
  apply (no_fence_views str (fun e : str => e) paragraph_render
           (fun _ => None)
           (lit "Diagram to follow: ```mermaid" ++ [LF] ++ lit "graph LR")
           (lit "app.py")).
  intros u d v H.
  apply (next_fence_complete u d v). rewrite <- H. reflexivity.
Defined.

(** ** The text of a diagram: strip *)

Section Strip.

Lemma lstrip_split (s : str) :
  exists a, s = a ++ lstrip s /\ forallb isspace a = true.
Proof.
  induction s as [|c s (a & E & Ha)]; [now exists []|].
  cbn [lstrip]. destruct (isspace c) eqn:Hc.
  - exists (c :: a). cbn [app forallb]. rewrite Hc, Ha. split; [|reflexivity].
    now f_equal.
  - now exists [].
Qed.

Lemma lstrip_head (s : str) :
  match lstrip s with
  | [] => True
  | c :: _ => isspace c = false
  end.
Proof.
  induction s as [|c s IH]; [exact I|].
  cbn [lstrip]. destruct (isspace c) eqn:Hc; assumption.
Qed.

Lemma lstrip_fixed (s : str) :
  match s with [] => True | c :: _ => isspace c = false end ->
  lstrip s = s.
Proof.
  destruct s as [|c s]; [reflexivity|]. cbn [lstrip]. now intros ->.
Qed.

Lemma lstrip_snoc (l : str) (c : char) :
  isspace c = false -> lstrip (l ++ [c]) = lstrip l ++ [c].
Proof.
  intros Hc. induction l as [|x l IH]; cbn [app lstrip].
  - now rewrite Hc.
  - destruct (isspace x); [exact IH|reflexivity].
Qed.

Lemma lstrip_spaces (s : str) : forallb isspace s = true -> lstrip s = [].
Proof.
  induction s as [|c s IH]; [reflexivity|].
  cbn [forallb lstrip]. intros H. apply andb_prop in H as [-> H].
  now apply IH.
Qed.

Lemma forallb_rev (f : char -> bool) (l : str) :
  forallb f (rev l) = forallb f l.
Proof.
  induction l as [|x l IH]; [reflexivity|].
  cbn [rev forallb]. rewrite forallb_app, IH. cbn. now rewrite andb_true_r, andb_comm.
Qed.

Lemma rstrip_split (s : str) :
  exists b, s = rstrip s ++ b /\ forallb isspace b = true.
Proof.
  unfold rstrip. destruct (lstrip_split (rev s)) as (a & E & Ha).
  exists (rev a). split.
  - rewrite <- rev_app_distr, <- E. now rewrite rev_involutive.
  - now rewrite forallb_rev.
Qed.

Lemma rstrip_last (s : str) :
  match rev (rstrip s) with
  | [] => True
  | c :: _ => isspace c = false
  end.
Proof. unfold rstrip. rewrite rev_involutive. apply lstrip_head. Qed.

Lemma rstrip_cons (c : char) (r : str) :
  isspace c = false -> rstrip (c :: r) = c :: rstrip r.
Proof.
  intros Hc. unfold rstrip. cbn [rev].
  rewrite (lstrip_snoc _ _ Hc), rev_app_distr. reflexivity.
Qed.

Lemma rstrip_fixed (s : str) :
  match rev s with [] => True | c :: _ => isspace c = false end ->
  rstrip s = s.
Proof.
  intros H. unfold rstrip. rewrite (lstrip_fixed _ H). apply rev_involutive.
Qed.

(** X9 -- The text of a diagram. The text that the export puts in a
    container and that the interactive view hands to the widget, the
    strip of a diagram part, is that part without the whitespace at its
    two ends and nothing else: the part is whitespace, then the text,
    then whitespace; the text neither starts nor ends with whitespace;
    stripping it again changes nothing; a part that is all whitespace
    gives the empty text. *)
Theorem diagram_text_trimmed (part : str) :
  (exists a b,
     part = a ++ strip part ++ b /\
     forallb isspace a = true /\ forallb isspace b = true) /\
  match strip part with [] => True | c :: _ => isspace c = false end /\
  match rev (strip part) with [] => True | c :: _ => isspace c = false end /\
  strip (strip part) = strip part /\
  mermaid_div (strip (strip part)) = mermaid_div (strip part) /\
  (forallb isspace part = true -> strip part = []).
Proof.
  assert (Hhead : match strip part with
                  | [] => True
                  | c :: _ => isspace c = false
                  end).
  { unfold strip. pose proof (lstrip_head part) as H.
    destruct (lstrip part) as [|c r]; [exact I|].
    now rewrite (rstrip_cons _ _ H). }
  assert (Hlast : match rev (strip part) with
                  | [] => True
                  | c :: _ => isspace c = false
                  end) by apply rstrip_last.
  assert (Hidem : strip (strip part) = strip part).
  { unfold strip at 1. rewrite (lstrip_fixed _ Hhead).
    now apply rstrip_fixed. }
  split; [|split; [exact Hhead|split; [exact Hlast|split; [exact Hidem|]]]].
  - destruct (lstrip_split part) as (a & Ea & Ha).
    destruct (rstrip_split (lstrip part)) as (b & Eb & Hb).
    exists a, b. split; [|now split].
    unfold strip. now rewrite <- Eb.
  - split; [now rewrite Hidem|].
    intros H. unfold strip. now rewrite (lstrip_spaces _ H).
Qed.

End Strip.

(** ** The name of the downloaded file *)

Section Splitext.

Import PosixPath.

Lemma rfind_from_lacks (c : char) (s : str) :
  forall i last, lacks c s = true -> rfind_from c s i last = last.
Proof.
  induction s as [|x s IH]; intros i last H; [reflexivity|].
  cbn [lacks forallb] in H. apply andb_prop in H as [Hx H].
  cbn [rfind_from]. destruct (N.eqb x c); [discriminate|].
  now apply IH.
Qed.

Lemma rfind_from_last (c : char) (a b : str) :
  forall i last, lacks c b = true ->
    rfind_from c (a ++ c :: b) i last = (i + Z.of_nat (length a))%Z.
Proof.
  induction a as [|x a IH]; intros i last H.
  - cbn [app rfind_from length]. rewrite N.eqb_refl.
    rewrite (rfind_from_lacks _ _ _ _ H). cbn. lia.
  - cbn [app rfind_from length]. rewrite (IH _ _ H). lia.
Qed.

Lemma skip_leading_dots_parts (n : nat) (p : str) :
  forall k d, fst (skip_leading_dots n p k d) ++ snd (skip_leading_dots n p k d)
              = p.
Proof.
  induction n as [|n IH]; intros k d; cbn [skip_leading_dots].
  - cbn. apply app_nil_r.
  - destruct (nth_error p (Z.to_nat k)) as [c|].
    + destruct (N.eqb c extsep); [apply IH|cbn; apply firstn_skipn].
    + cbn. apply firstn_skipn.
Qed.

(** The loop stops at the first character of the component that is no
    dot and splits at the last dot. *)
Lemma skip_leading_dots_stops (dots : str) :
  forall (pre : str) (x : char) (tail : str) (n : nat) (d : Z),
    all_dots dots = true -> N.eqb x extsep = false ->
    length dots < n ->
    skip_leading_dots n (pre ++ dots ++ x :: tail)
      (Z.of_nat (length pre)) d
    = (firstn (Z.to_nat d) (pre ++ dots ++ x :: tail),
       skipn (Z.to_nat d) (pre ++ dots ++ x :: tail)).
Proof.
  induction dots as [|c dots IH]; intros pre x tail n d Hd Hx Hn.
  - destruct n as [|n]; [cbn in Hn; lia|].
    cbn [skip_leading_dots app]. rewrite Nat2Z.id.
    rewrite nth_error_app2, Nat.sub_diag by lia. cbn [nth_error].
    now rewrite Hx.
  - destruct n as [|n]; [cbn in Hn; lia|].
    cbn [all_dots forallb] in Hd. apply andb_prop in Hd as [Hc Hd].
    cbn [skip_leading_dots]. rewrite Nat2Z.id.
    rewrite nth_error_app2, Nat.sub_diag by lia. cbn [app nth_error].
    rewrite Hc.
    replace (pre ++ c :: dots ++ x :: tail)
      with ((pre ++ [c]) ++ dots ++ x :: tail)
      by (now rewrite <- app_assoc).
    replace (Z.of_nat (length pre) + 1)%Z
      with (Z.of_nat (length (pre ++ [c])))
      by (rewrite length_app; cbn [length]; lia).
    apply IH; [assumption|assumption|cbn [length] in Hn; lia].
Qed.

(** The loop runs to its end over dots. *)
Lemma skip_leading_dots_runs (dots : str) :
  forall (pre tail : str) (n : nat) (d : Z),
    all_dots dots = true -> n <= length dots ->
    skip_leading_dots n (pre ++ dots ++ tail) (Z.of_nat (length pre)) d
    = (pre ++ dots ++ tail, []).
Proof.
  induction dots as [|c dots IH]; intros pre tail n d Hd Hn.
  - destruct n; [reflexivity|cbn in Hn; lia].
  - destruct n as [|n]; [reflexivity|].
    cbn [all_dots forallb] in Hd. apply andb_prop in Hd as [Hc Hd].
    cbn [skip_leading_dots]. rewrite Nat2Z.id.
    rewrite nth_error_app2, Nat.sub_diag by lia. cbn [app nth_error].
    rewrite Hc.
    replace (pre ++ c :: dots ++ tail) with ((pre ++ [c]) ++ dots ++ tail)
      by (now rewrite <- app_assoc).
    replace (Z.of_nat (length pre) + 1)%Z
      with (Z.of_nat (length (pre ++ [c])))
      by (rewrite length_app; cbn [length]; lia).
    apply IH; [assumption|cbn [length] in Hn; lia].
Qed.

Lemma lacks_app (c : char) (a b : str) :
  lacks c (a ++ b) = lacks c a && lacks c b.
Proof. apply forallb_app. Qed.

Lemma splitext_with_extension (dots : str) (x : char) (rest ext : str) :
  all_dots dots = true -> N.eqb x extsep = false ->
  lacks sep (dots ++ x :: rest ++ extsep :: ext) = true ->
  lacks extsep ext = true ->
  splitext (dots ++ x :: rest ++ extsep :: ext)
  = (dots ++ x :: rest, extsep :: ext).
Proof.
  intros Hd Hx Hsep Hext. unfold splitext.
  assert (Esep : rfind sep (dots ++ x :: rest ++ extsep :: ext) = (-1)%Z)
    by (unfold rfind; now rewrite (rfind_from_lacks _ _ _ _ Hsep)).
  rewrite Esep.
  assert (Edot : rfind extsep (dots ++ x :: rest ++ extsep :: ext)
                 = Z.of_nat (length (dots ++ x :: rest))).
  { unfold rfind.
    replace (dots ++ x :: rest ++ extsep :: ext)
      with ((dots ++ x :: rest) ++ extsep :: ext)
      by (now rewrite <- app_assoc).
    rewrite (rfind_from_last _ _ _ _ _ Hext). lia. }
  rewrite Edot. cbv zeta.
  replace (Z.of_nat (length (dots ++ x :: rest)) >? -1)%Z with true
    by (symmetry; apply Z.gtb_lt; lia).
  replace (-1 + 1)%Z with (Z.of_nat (length (@nil char))) by reflexivity.
  change (dots ++ x :: rest ++ extsep :: ext)
    with ([] ++ dots ++ x :: rest ++ extsep :: ext).
  rewrite skip_leading_dots_stops.
  - rewrite Nat2Z.id. cbn [app].
    replace (dots ++ x :: rest ++ extsep :: ext)
      with ((dots ++ x :: rest) ++ extsep :: ext)
      by (now rewrite <- app_assoc).
    rewrite firstn_app, firstn_all, Nat.sub_diag.
    rewrite skipn_app, skipn_all, Nat.sub_diag. cbn.
    now rewrite app_nil_r.
  - assumption.
  - assumption.
  - cbn [length]. rewrite Z.sub_0_r, Nat2Z.id.
    rewrite length_app. cbn [length]. lia.
Qed.

Lemma splitext_without_extension (dots rest : str) :
  all_dots dots = true -> lacks extsep rest = true ->
  lacks sep (dots ++ rest) = true ->
  splitext (dots ++ rest) = (dots ++ rest, []).
Proof.
  intros Hd Hrest Hsep. unfold splitext.
  assert (Esep : rfind sep (dots ++ rest) = (-1)%Z)
    by (unfold rfind; now rewrite (rfind_from_lacks _ _ _ _ Hsep)).
  rewrite Esep. clear Esep Hsep.
  revert Hd. induction dots as [|c dots' _] using rev_ind; intros Hd.
  - cbn [app]. unfold rfind.
    rewrite (rfind_from_lacks _ _ _ _ Hrest). reflexivity.
  - assert (Hc : N.eqb c extsep = true /\ all_dots dots' = true).
    { unfold all_dots in Hd. rewrite forallb_app in Hd.
      apply andb_prop in Hd as [Hd' Hc]. cbn in Hc.
      rewrite andb_true_r in Hc. now split. }
    destruct Hc as [Hc Hd'].
    apply N.eqb_eq in Hc. subst c.
    assert (Edot : rfind extsep ((dots' ++ [extsep]) ++ rest)
                   = Z.of_nat (length dots')).
    { unfold rfind. rewrite <- app_assoc. cbn [app].
      rewrite (rfind_from_last _ _ _ _ _ Hrest). lia. }
    rewrite Edot. cbv zeta.
    replace (Z.of_nat (length dots') >? -1)%Z with true
      by (symmetry; apply Z.gtb_lt; lia).
    replace (-1 + 1)%Z with (Z.of_nat (length (@nil char))) by reflexivity.
    change ((dots' ++ [extsep]) ++ rest)
      with ([] ++ (dots' ++ [extsep]) ++ rest).
    apply skip_leading_dots_runs; [assumption|].
    cbn [length]. rewrite Z.sub_0_r, Nat2Z.id, length_app. lia.
Qed.

(** X10 -- The name of the downloaded file. [splitext] cuts a path in two
    parts that give the path back. For a file name without [/] that ends
    in a dot and an extension without dot, and that has a character other
    than a dot before that dot, the root is the name without the dot and
    the extension, so the download is named after it with
    [_analysis.html] appended; a name without [/] whose only dots are
    leading ones keeps all of its name as the root. *)
Theorem download_file_name :
  (forall p, fst (splitext p) ++ snd (splitext p) = p) /\
  (forall (dots : str) (x : char) (rest ext : str),
     all_dots dots = true -> N.eqb x extsep = false ->
     lacks sep (dots ++ x :: rest ++ extsep :: ext) = true ->
     lacks extsep ext = true ->
     splitext (dots ++ x :: rest ++ extsep :: ext)
     = (dots ++ x :: rest, extsep :: ext)) /\
  (forall dots rest : str,
     all_dots dots = true -> lacks extsep rest = true ->
     lacks sep (dots ++ rest) = true ->
     splitext (dots ++ rest) = (dots ++ rest, [])) /\
  (forall (Exn : Type) (exn_str : Exn -> str) (md_render : str -> Exn + str)
          (raw doc dots : str) (x : char) (rest ext : str),
     all_dots dots = true -> N.eqb x extsep = false ->
     lacks sep (dots ++ x :: rest ++ extsep :: ext) = true ->
     lacks extsep ext = true ->
     generate_html_report md_render raw (dots ++ x :: rest ++ extsep :: ext)
     = inr doc ->
     download_section exn_str md_render (fun n => fst (splitext n)) raw
       (dots ++ x :: rest ++ extsep :: ext)
     = ([st_download_button ([128229%N] ++ lit " Download Full HTML Report")
           doc ((dots ++ x :: rest) ++ lit "_analysis.html")
           (lit "text/html")], inr tt)).
Proof.
  split; [|split; [exact splitext_with_extension|
                   split; [exact splitext_without_extension|]]].
  - intros p. unfold splitext. cbv zeta.
    destruct (rfind extsep p >? rfind sep p)%Z.
    + apply skip_leading_dots_parts.
    + cbn. apply app_nil_r.
  - intros Exn exn_str md_render raw doc dots x rest ext Hd Hx Hsep Hext G.
    unfold download_section. rewrite G.
    cbv beta iota delta [try_except bind lift call].
    rewrite (splitext_with_extension _ _ _ _ Hd Hx Hsep Hext).
    reflexivity.
Qed.

End Splitext.

(** The download for the scenario, uploaded as app.py. *)
Lemma download_file_name_witness :
  exists doc,
    download_section (fun e : str => e) paragraph_render
      (fun n => fst (PosixPath.splitext n)) example_input (lit "app.py")
    = ([st_download_button ([128229%N] ++ lit " Download Full HTML Report")
          doc (lit "app_analysis.html") (lit "text/html")], inr tt).
Proof.
  eexists.
  exact (proj2 (proj2 (proj2 download_file_name)) str (fun e : str => e)
           paragraph_render example_input _ [] 97%N (lit "pp") (lit "py")
           eq_refl eq_refl eq_refl eq_refl eq_refl).
Defined.

(** ** The prompt *)

Section Prompt.

Lemma system_prompt_formats :
  Fmt.format SYSTEM_PROMPT [] = inr system_message.
Proof. vm_compute. reflexivity. Qed.

Lemma prompt_parsed :
  exists prompt,
    Fmt.from_messages prompt_messages = inr prompt /\
    flat_map (fun m => Fmt.variables (snd m)) prompt = [lit "python_code"] /\
    Fmt.format_messages prompt [] = inl (Fmt.KeyError (lit "python_code")) /\
    forall code,
      Fmt.format_messages prompt [(lit "python_code", code)]
      = inr (payload code).
Proof.
  eexists. split; [vm_compute; reflexivity|].
  split; [vm_compute; reflexivity|].
  split; [vm_compute; reflexivity|].
  intros code. vm_compute. reflexivity.
Qed.

(** X11 -- The prompt. The two templates of the prompt parse without
    error, and their only variable is python_code; without a value for
    it the formatting raises a key error. For every source text, braces
    and backticks included, formatting gives two messages: the system
    message, which is the system prompt with its doubled braces undone
    and does not depend on the source, and the human message, which is
    the fixed sentence, then the source as it is between the line of the
    python fence and the closing fence. The system prompt holds braces
    in two places only, doubled around the two quoted examples of its
    business logic lens; the system message holds one brace in each of
    these places and is the same text otherwise. *)
Theorem prompt_wraps_source :
  Fmt.format SYSTEM_PROMPT [] = inr system_message /\
  (exists a e : str,
     SYSTEM_PROMPT
     = a ++ lit "{{" ++ [DQUOTE] ++ lit "order processing," ++ [DQUOTE]
         ++ lit "}}" ++ lit " "
         ++ lit "{{" ++ [DQUOTE] ++ lit "workflow run" ++ [DQUOTE]
         ++ lit "}}" ++ e /\
     system_message
     = a ++ lit "{" ++ [DQUOTE] ++ lit "order processing," ++ [DQUOTE]
         ++ lit "}" ++ lit " "
         ++ lit "{" ++ [DQUOTE] ++ lit "workflow run" ++ [DQUOTE]
         ++ lit "}" ++ e /\
     brace_free a = true /\ brace_free e = true) /\
  exists prompt,
    Fmt.from_messages prompt_messages = inr prompt /\
    flat_map (fun m => Fmt.variables (snd m)) prompt = [lit "python_code"] /\
    Fmt.format_messages prompt [] = inl (Fmt.KeyError (lit "python_code")) /\
    forall code,
      Fmt.format_messages prompt [(lit "python_code", code)]
      = inr [(lit "system", system_message);
             (lit "human",
              lit "Here is the Python code I need you to analyze:"
              ++ [LF] ++ [LF] ++ lit "```python" ++ [LF]
              ++ code ++ [LF] ++ lit "```")] /\
      Fmt.format HUMAN_TEMPLATE [(lit "python_code", code)]
      = inr (human_message code).
Proof.
  split; [exact system_prompt_formats|]. split.
  { exists (firstn 1772 SYSTEM_PROMPT), (skipn 1814 SYSTEM_PROMPT).
    repeat split; vm_compute; reflexivity. }
  destruct prompt_parsed as (prompt & EP & EV & EK & EF).
  exists prompt.
  split; [assumption|]. split; [assumption|]. split; [assumption|].
  intros code. split; [apply EF|vm_compute; reflexivity].
Qed.

End Prompt.

(** ** The script as a whole: gates and outcomes *)

Section ScriptOutcomes.

Variable Exn : Type.
Variable exn_str : Exn -> str.
Variable md_render : str -> Exn + str.
Variable st_mermaid : str -> option Exn.
Variable splitext_root : str -> str.
Variable bytes : Type.
Variable decode_utf8 : bytes -> Exn + str.
Variable new_llm : option Exn.
Variable exn_of_fmt : Fmt.error -> Exn.
Variable llm_invoke : list (str * str) -> Exn + str.

Local Abbreviation run :=
  (script exn_str md_render st_mermaid splitext_root bytes decode_utf8
     new_llm exn_of_fmt llm_invoke).

Local Abbreviation unexpected e :=
  (show (st_error (lit "An unexpected error occurred: " ++ exn_str e))).

Lemma script_no_key (up : option (bytes * str)) :
  run false up = run false None.
Proof. reflexivity. Qed.

Lemma script_decode_error (data : bytes) (name : str) (e : Exn) :
  decode_utf8 data = inl e ->
  run true (Some (data, name)) = run true None ++ [unexpected e].
Proof.
  intros H. unfold script, analyse. rewrite H. reflexivity.
Qed.

Lemma script_client_error (data : bytes) (name code : str) (e : Exn) :
  decode_utf8 data = inr code -> new_llm = Some e ->
  run true (Some (data, name))
  = run true None
    ++ [show (st_expander (lit "Show Uploaded Code"));
        show (st_code code (lit "python"));
        unexpected e].
Proof.
  intros H1 H2. unfold script, analyse. rewrite H1, H2. reflexivity.
Qed.

Lemma script_invoke_error (data : bytes) (name code : str) (e : Exn) :
  decode_utf8 data = inr code -> new_llm = None ->
  llm_invoke (payload code) = inl e ->
  run true (Some (data, name))
  = run true None
    ++ [show (st_expander (lit "Show Uploaded Code"));
        show (st_code code (lit "python"));
        st_spinner ([129302%N]
                    ++ lit " AI is performing a deep analysis of your code... This might take a moment.");
        chain_invoke (payload code);
        unexpected e].
Proof.
  intros H1 H2 H3.
  destruct prompt_parsed as (prompt & EP & _ & _ & EF).
  unfold script, analyse. rewrite H1, H2, EP, (EF code), H3. reflexivity.
Qed.

Lemma script_success (data : bytes) (name code raw : str) :
  decode_utf8 data = inr code -> new_llm = None ->
  llm_invoke (payload code) = inr raw ->
  run true (Some (data, name))
  = run true None
    ++ [show (st_expander (lit "Show Uploaded Code"));
        show (st_code code (lit "python"));
        st_spinner ([129302%N]
                    ++ lit " AI is performing a deep analysis of your code... This might take a moment.");
        chain_invoke (payload code);
        st_subheader ([9989%N] ++ lit " Analysis Complete")]
    ++ map show
         (fst (show_report exn_str md_render st_mermaid splitext_root
                 raw name)).
Proof.
  intros H1 H2 H3.
  destruct prompt_parsed as (prompt & EP & _ & _ & EF).
  unfold script, analyse. rewrite H1, H2, EP, (EF code), H3.
  assert (R : snd (show_report exn_str md_render st_mermaid splitext_root
                     raw name) = inr tt).
  { unfold show_report, download_section.
    rewrite render_interactive_trace.
    destruct (generate_html_report md_render raw name); reflexivity. }
  rewrite R. cbn [app]. rewrite app_nil_r. reflexivity.
Qed.

Lemma option_cases (A : Type) (o : option A) :
  o = None \/ exists a, o = Some a.
Proof. destruct o as [a|]; [right; now exists a|now left]. Qed.

Lemma model_calls_app (p q : list page) :
  model_calls (p ++ q) = model_calls p ++ model_calls q.
Proof. apply flat_map_app. Qed.

Lemma model_calls_shown (l : list ui) : model_calls (map show l) = [].
Proof. induction l as [|c l IH]; [reflexivity|exact IH]. Qed.

Lemma model_calls_in (m : list (str * str)) (p : list page) :
  In (chain_invoke m) p <-> In m (model_calls p).
Proof.
  unfold model_calls. rewrite in_flat_map. split.
  - intros H. exists (chain_invoke m). split; [assumption|now left].
  - intros (c & Hc & Hm).
    destruct c; cbn in Hm; try contradiction.
    destruct Hm as [->|[]]. assumption.
Qed.

(** The calls of the model in a run: one, on the messages for the decoded
    text, when every gate is passed, and none otherwise. *)
Lemma script_model_calls (has_key : bool) (up : option (bytes * str)) :
  (exists data name code,
     has_key = true /\ up = Some (data, name) /\
     decode_utf8 data = inr code /\ new_llm = None /\
     model_calls (run has_key up) = [payload code]) \/
  ((has_key = false \/ up = None \/
    (exists data name e, up = Some (data, name) /\ decode_utf8 data = inl e)
    \/ (exists e, new_llm = Some e)) /\
   model_calls (run has_key up) = []).
Proof.
  destruct has_key; [|right; split; [now left|reflexivity]].
  destruct up as [[data name]|];
    [|right; split; [right; now left|reflexivity]].
  destruct (decode_utf8 data) as [e|code] eqn:Hd.
  { right. split; [right; right; left; now exists data, name, e|].
    rewrite (script_decode_error data name e Hd), model_calls_app.
    reflexivity. }
  destruct (option_cases _ new_llm) as [Hc|[e Hc]]; cycle 1.
  { right. split; [right; right; right; now exists e|].
    rewrite (script_client_error data name code e Hd Hc), model_calls_app.
    reflexivity. }
  left. exists data, name, code.
  split; [reflexivity|]. split; [reflexivity|]. split; [exact Hd|].
  split; [exact Hc|].
  destruct (llm_invoke (payload code)) as [e|raw] eqn:Hl.
  - rewrite (script_invoke_error data name code e Hd Hc Hl), model_calls_app.
    reflexivity.
  - rewrite (script_success data name code raw Hd Hc Hl), !model_calls_app.
    rewrite model_calls_shown. reflexivity.
Qed.

(** X12 -- The gates of the script. Without the key in the environment
    the page is the same whatever was uploaded, with no uploader and no
    call of the model. In every run, a call of the model happens only
    with the key present, a file uploaded whose content decodes and a
    model client built, and it is made on the system message and the
    human message of the decoded text. A run calls the model at most
    once: the calls of a run, counted with repetition, are none or one,
    and with the key present, a file uploaded whose content decodes and
    a model client built they are exactly one. *)
Theorem script_gates (has_key : bool) (up : option (bytes * str)) :
  (has_key = false ->
   run has_key up = run false None /\
   (forall l t, ~ In (st_file_uploader l t) (run has_key up)) /\
   (forall m, ~ In (chain_invoke m) (run has_key up))) /\
  (forall m, In (chain_invoke m) (run has_key up) ->
     has_key = true /\
     exists data name code,
       up = Some (data, name) /\ decode_utf8 data = inr code /\
       new_llm = None /\ m = payload code) /\
  length (model_calls (run has_key up)) <= 1 /\
  (forall m, In (chain_invoke m) (run has_key up) <->
             model_calls (run has_key up) = [m]) /\
  (forall data name code,
     has_key = true -> up = Some (data, name) ->
     decode_utf8 data = inr code -> new_llm = None ->
     model_calls (run has_key up) = [payload code]).
Proof.
  assert (Hno : forall m, ~ In (chain_invoke m) (run false up)).
  { intros m. unfold script. cbn [app negb In].
    intros [H|[H|[H|[H|[]]]]]; discriminate. }
  pose proof (script_model_calls has_key up) as Hcalls.
  split; [|split; [|split; [|split]]].
  - intros ->. split; [reflexivity|]. split; [|exact Hno].
    intros l t. unfold script. cbn [app negb In].
    intros [H|[H|[H|[H|[]]]]]; discriminate.
  - intros m H. apply model_calls_in in H.
    destruct Hcalls as [(data & name & code & Hk & Hu & Hd & Hc & E)|[_ E]];
      rewrite E in H; [|contradiction].
    destruct H as [<-|[]].
    split; [exact Hk|]. now exists data, name, code.
  - destruct Hcalls as [(data & name & code & _ & _ & _ & _ & E)|[_ E]];
      rewrite E; cbn [length]; lia.
  - intros m. rewrite model_calls_in.
    destruct Hcalls as [(data & name & code & _ & _ & _ & _ & E)|[_ E]];
      rewrite E; split.
    + intros [<-|[]]. reflexivity.
    + intros H. inversion H. now left.
    + contradiction.
    + discriminate.
  - intros data name code Hk Hu Hd Hc.
    destruct Hcalls as [(data' & name' & code' & _ & Hu' & Hd' & _ & E)
                       |[[H|[H|[H|H]]] _]].
    + rewrite Hu in Hu'. inversion Hu'; subst data' name'.
      rewrite Hd in Hd'. inversion Hd'; subst code'. exact E.
    + congruence.
    + congruence.
    + destruct H as (data' & name' & e & Hu' & Hd').
      rewrite Hu in Hu'. inversion Hu'; subst data' name'. congruence.
    + destruct H as (e & He). congruence.
Qed.

(** X13 -- The error boundary of the script. With the key present and a
    file uploaded, an exception raised before the response of the model
    arrives ends the page with its message after what was shown so far,
    and nothing of a report follows: a content that does not decode
    shows the message only; a model client that cannot be built shows
    the uploaded code and the message; a call of the model that raises
    shows the uploaded code, the spinner and the message. In none of
    these cases is a raw output shown. *)
Theorem script_error_boundary (data : bytes) (name : str) (e : Exn) :
  (decode_utf8 data = inl e ->
   run true (Some (data, name)) = run true None ++ [unexpected e]) /\
  (forall code,
     decode_utf8 data = inr code -> new_llm = Some e ->
     run true (Some (data, name))
     = run true None
       ++ [show (st_expander (lit "Show Uploaded Code"));
           show (st_code code (lit "python"));
           unexpected e]) /\
  (forall code,
     decode_utf8 data = inr code -> new_llm = None ->
     llm_invoke (payload code) = inl e ->
     run true (Some (data, name))
     = run true None
       ++ [show (st_expander (lit "Show Uploaded Code"));
           show (st_code code (lit "python"));
           st_spinner ([129302%N]
                       ++ lit " AI is performing a deep analysis of your code... This might take a moment.");
           chain_invoke (payload code);
           unexpected e]).
Proof.
  split; [apply script_decode_error|]. split.
  - intros code. apply script_client_error.
  - intros code. apply script_invoke_error.
Qed.

(** X14 -- The page of a successful run. With the key present, a file
    uploaded whose content decodes to [code], a model client built and a
    response [raw] of the model to the messages for [code], the page
    is: what is shown before an upload, the uploaded code, the spinner,
    the one call of the model, the heading of the result, then, in this
    order, the download button or the message of the export error, the
    divider and the interactive rendering of [raw]; no message of an
    unexpected error ends the page. *)
Theorem script_success_page (data : bytes) (name code raw : str) :
  decode_utf8 data = inr code -> new_llm = None ->
  llm_invoke (payload code) = inr raw ->
  run true (Some (data, name))
  = run true None
    ++ [show (st_expander (lit "Show Uploaded Code"));
        show (st_code code (lit "python"));
        st_spinner ([129302%N]
                    ++ lit " AI is performing a deep analysis of your code... This might take a moment.");
        chain_invoke (payload code);
        st_subheader ([9989%N] ++ lit " Analysis Complete")]
    ++ map show
         (match generate_html_report md_render raw name with
          | inr doc =>
              st_download_button
                ([128229%N] ++ lit " Download Full HTML Report") doc
                (splitext_root name ++ lit "_analysis.html") (lit "text/html")
          | inl e =>
              st_error (lit "Could not generate HTML report: " ++ exn_str e)
          end
          :: st_divider
          :: fst (render_interactive exn_str st_mermaid raw)).
Proof.
  intros H1 H2 H3. rewrite (script_success data name code raw H1 H2 H3).
  do 3 f_equal.
  unfold show_report, download_section.
  rewrite render_interactive_trace.
  destruct (generate_html_report md_render raw name); reflexivity.
Qed.

End ScriptOutcomes.

(** A successful run on the scenario: the file app.py holds one line, the
    model answers with the text of the scenario. *)
Lemma script_success_page_witness :
  let run :=
    script (fun e : str => e) paragraph_render (fun _ => None)
      (fun n => fst (PosixPath.splitext n)) str
      (fun b : str => (inr b : str + str)) None
      (fun _ => lit "format error")
      (fun _ => (inr example_input : str + str)) in
  run true (Some (lit "print(1)", lit "app.py"))
  = run true None
    ++ [show (st_expander (lit "Show Uploaded Code"));
        show (st_code (lit "print(1)") (lit "python"));
        st_spinner ([129302%N]
                    ++ lit " AI is performing a deep analysis of your code... This might take a moment.");
        chain_invoke (payload (lit "print(1)"));
        st_subheader ([9989%N] ++ lit " Analysis Complete")]
    ++ map show
         (match generate_html_report paragraph_render example_input
                  (lit "app.py") with
          | inr doc =>
              st_download_button
                ([128229%N] ++ lit " Download Full HTML Report") doc
                (fst (PosixPath.splitext (lit "app.py"))
                 ++ lit "_analysis.html") (lit "text/html")
          | inl e =>
              st_error (lit "Could not generate HTML report: " ++ e)
          end
          :: st_divider
          :: fst (render_interactive (fun e : str => e) (fun _ => None)
                    example_input)).
Proof.
  exact (script_success_page str (fun e : str => e) paragraph_render
           (fun _ => None) (fun n => fst (PosixPath.splitext n)) str
           (fun b : str => (inr b : str + str)) None
           (fun _ => lit "format error")
           (fun _ => (inr example_input : str + str))
           (lit "print(1)") (lit "app.py") (lit "print(1)") example_input
           eq_refl eq_refl eq_refl).
Defined.
